(** * Round-robin tournament creation form: model and properties

    Shallow embedding of [src/components/AddTournamentForm.tsx]: the zod
    schema of the form (title, players), the submit handler [onSubmit], and
    the scheduler [roundRobinTournament] it calls (imported from
    [@/lib/utils]).

    JavaScript strings are sequences of UTF-16 code units and [.length]
    counts code units, so a string is a list of code units here. A call
    either returns or throws; [doc] of the Firestore SDK throws for a
    reference with an empty segment, which nothing in the component
    catches. *)

From stdpp Require Import base option list gmap strings pretty.
From Stdlib Require Import ZArith Ascii.

Local Open Scope nat_scope.

(** ** JavaScript strings *)

Abbreviation js_string := (list N).

(** A literal of the source, one code unit per character. *)
Definition str (s : string) : js_string :=
  N_of_ascii <$> String.list_ascii_of_string s.

(** The code unit of [";"]. *)
Definition semicolon : N := 59%N.

(** [value.split(";")]: the pieces between the separators; a string with
    [k] separators always has [k + 1] pieces, and the empty string has one
    piece, the empty string. *)
Fixpoint split (value : js_string) : list js_string :=
  match value with
  | [] => [[]]
  | c :: rest =>
      if (c =? semicolon)%N then [] :: split rest
      else match split rest with
           | [] => [[c]]
           | piece :: pieces => (c :: piece) :: pieces
           end
  end.

(** [value.includes(";")]. *)
Definition includes (value : js_string) : bool :=
  existsb (λ c, (c =? semicolon)%N) value.

(** [arr.every(pred)]. *)
Definition every {A} (pred : A → bool) (arr : list A) : bool := forallb pred arr.

(** ** Data model ([Player], [Pair], [Round]) *)

Module Player.
Record t := mk { id : nat; name : js_string; points : Z }.
#[global] Instance player_eq_dec : EqDecision t.
Proof. solve_decision. Defined.
End Player.

Module Pair.
(** [player2] absent encodes a bye. *)
Record t := mk { id : nat; player1 : Player.t; player2 : option Player.t }.
#[global] Instance pair_eq_dec : EqDecision t.
Proof. solve_decision. Defined.
End Pair.

Module Round.
Record t := mk { id : nat; pairs : list Pair.t }.
#[global] Instance round_eq_dec : EqDecision t.
Proof. solve_decision. Defined.
End Round.

(** ** The [players] field of the schema

    [z.string().includes(";", ...).refine(value => ..., ...)]: a zod schema
    reports one issue per failed check, and a value is accepted when no issue
    is reported. *)

Definition msg_players_separator : string :=
  "Players must be separated by a semicolon (;)".
Definition msg_players_count : string :=
  "Tournament must have at least 4 players and at most 8 players".

(** The callback of [refine] (lines 75-78). *)
Definition players_refine (value : js_string) : bool :=
  (4 <=? length (split value)) &&
  (length (split value) <=? 8) &&
  every (λ player, 0 <? length player) (split value).

Definition players_issues (value : js_string) : list string :=
  (if includes value then [] else [msg_players_separator]) ++
  (if players_refine value then [] else [msg_players_count]).

Definition players_accepted (value : js_string) : bool :=
  bool_decide (players_issues value = []).

(** What the specification asks of a player list, in its own words:
    semicolon-separated, with 4 to 8 entries, each of them non-empty. *)
Definition players_wellformed (value : js_string) : Prop :=
  semicolon ∈ value ∧
  4 ≤ length (split value) ≤ 8 ∧
  ∀ entry, entry ∈ split value → entry ≠ [].

(** ** [formattedPlayers] (lines 107-113) *)

Definition formattedPlayers (players : js_string) : list Player.t :=
  imap (λ i player, {| Player.id := i; Player.name := player; Player.points := 0 |})
       (split players).

(** ** [numberOfRounds] (lines 115-128) *)

Definition numberOfRounds (formattedPlayers_length : nat) : nat :=
  match formattedPlayers_length with
  | 8 | 7 => 7
  | 6 | 5 => 5
  | _ => 3
  end.

(** ** The scheduler [roundRobinTournament]

    [onSubmit] imports it from [@/lib/utils]; it is described by section 4.1
    of the specification (the circle method), whose steps the definitions
    below follow one by one. The circle is a list of slots; the definitions
    that only move slots around are generic in the type of a slot. *)

Section Circle.
Context {X : Type}.

(** Modelled from the spec: [roundRobinTournament] of [@/lib/utils], step 4
    (rotation). Position 0 stays; position 1 takes the occupant of the last
    position and every other occupant moves up by one. *)
Definition rotate (circle : list X) : list X :=
  match circle with
  | [] => []
  | fixed :: rotating =>
      fixed :: drop (length rotating - 1) rotating
            ++ take (length rotating - 1) rotating
  end.

(** Modelled from the spec: [roundRobinTournament] of [@/lib/utils], step 3
    (which positions meet). Position 0 meets the opposite position
    [n' / 2], then position [i] meets position [n' - i] for
    [i = 1 .. n'/2 - 1], from the outside in. *)
Definition slot_pairs (n' : nat) : list (nat * nat) :=
  (0, n' / 2) :: ((λ i, (i, n' - i)) <$> seq 1 (n' / 2 - 1)).

(** Modelled from the spec: [roundRobinTournament] of [@/lib/utils], step 3
    (the occupants that meet in the current arrangement). *)
Definition round_slots (circle : list X) : list (X * X) :=
  omap (λ '(i, j), a ← circle !! i; b ← circle !! j; Some (a, b))
       (slot_pairs (length circle)).

(** Modelled from the spec: [roundRobinTournament] of [@/lib/utils], steps 3
    and 4 repeated for [count] rounds. *)
Fixpoint rounds_from (count : nat) (circle : list X) : list (list (X * X)) :=
  match count with
  | 0 => []
  | S count' => round_slots circle :: rounds_from count' (rotate circle)
  end.
End Circle.

Section Draw.
Context {X : Type}.

(** Modelled from the spec: [roundRobinTournament] of [@/lib/utils], steps 1
    and 2. The players are seated in input order; for an odd count the
    placeholder ([None]) takes one more seat, after them. *)
Definition seat (players : list X) : list (option X) :=
  (Some <$> players) ++ (if Nat.odd (length players) then [None] else []).

(** Modelled from the spec: [roundRobinTournament] of [@/lib/utils], step 1
    (byes). The placeholder is never put out: who meets it gets a pair
    without [player2]. *)
Definition matchup (slots : option X * option X) : option (X * option X) :=
  match slots with
  | (Some p, Some q) => Some (p, Some q)
  | (Some p, None) | (None, Some p) => Some (p, None)
  | (None, None) => None
  end.

(** Modelled from the spec: [roundRobinTournament] of [@/lib/utils], the
    rounds [r = 0 .. N' - 2] before ids are given. *)
Definition draw (players : list X) : list (list (X * option X)) :=
  let circle := seat players in
  (λ met : list (option X * option X), omap matchup met)
    <$> rounds_from (length circle - 1) circle.
End Draw.

(** Modelled from the spec: [roundRobinTournament] of [@/lib/utils], steps 5
    and 6: [Pair.id] is the 0-based index in the round, [Round.id] is
    [r + 1]. *)
Definition roundRobinTournament (players : list Player.t) : list Round.t :=
  imap (λ r matchups,
          {| Round.id := r + 1;
             Round.pairs := imap (λ k '(p1, p2), Pair.mk k p1 p2) matchups |})
       (draw players).

(** ** The world around the component

    The component reads the signed-in user, the clock and the [slug] state
    variable, talks to Firestore ([getDoc], [writeBatch]) and to the page
    (toasts, the console, the dialog's close button, the router). *)

Inductive PointSystem := football | chess | basketball.

Record User := { sub : js_string }.

(** The path segments of a document reference,
    [doc(db, "tournaments", slug, ...)]. *)
Abbreviation path := (list js_string).

(** The object written as the tournament document (lines 134-141). *)
Module Tournament.
Record t := mk {
  slug : js_string;
  title : js_string;
  userSub : js_string;
  players : list Player.t;
  pointSystem : PointSystem;
  timestamp : Z
}.
End Tournament.

(** What [batch.set] stores: the tournament, [{ id: round.id }], or a pair. *)
Inductive document :=
  | TournamentDoc (tournament : Tournament.t)
  | RoundDoc (id : nat)
  | PairDoc (pair : Pair.t).

(** What the page and the collaborators see happen, in order. [Scheduled]
    marks the call [roundRobinTournament(formattedPlayers)]; [Commit] is
    [batch.commit()] with the writes of the batch and whether it went
    through. *)
Inductive event :=
  | ToastError (message : string)
  | ToastPromise (fulfilled : bool)
  | ConsoleError
  | Scheduled (players : list Player.t)
  | Commit (writes : list (path * document)) (fulfilled : bool)
  | CloseClick
  | RouterRefresh.

(** What the component cannot choose: who is signed in, the time, whether
    Firestore answers a read, whether it takes a commit, and whether
    [closeRef.current] is an element. *)
Record Env := {
  user : option User;
  now : Z;
  getDoc_throws : bool;
  commit_rejects : bool;
  closeRef_attached : bool
}.

(** A reference of a document in Firestore: an even number of segments,
    none of them empty. *)
Definition is_key (ref : path) : bool :=
  forallb (λ segment, negb (length segment =? 0)) ref
  && Nat.even (length ref) && negb (length ref =? 0).

Record World := {
  slug : js_string;
  documents : gmap path document;
  trace : list event
}.

(** What Firestore holds: the documents at references of documents. *)
Definition store (w : World) : gmap path document :=
  filter (λ kv, is_key kv.1) (documents w).

(** How a call ends. *)
Inductive outcome (A : Type) :=
  | Returned (a : A)
  | Thrown.
Arguments Returned {A} a.
Arguments Thrown {A}.
#[global] Instance outcome_eq_dec {A} `{EqDecision A} : EqDecision (outcome A).
Proof. solve_decision. Defined.

(** Computations that read and change the world, and may throw: what was
    done before the throw stays done, what comes after it is not run. *)
Definition M (A : Type) : Type := World → outcome A * World.

#[global] Instance M_ret : MRet M := λ A a w, (Returned a, w).
#[global] Instance M_bind : MBind M :=
  λ A B f m w,
    match m w with
    | (Returned a, w') => f a w'
    | (Thrown, w') => (Thrown, w')
    end.

Definition throw {A} : M A := λ w, (Thrown, w).

Definition setSlug (newSlug : js_string) : M unit :=
  λ w, (Returned (),
        {| slug := newSlug; documents := documents w; trace := trace w |}).

Definition getSlug : M js_string := λ w, (Returned (slug w), w).

Definition emit (e : event) : M unit :=
  λ w, (Returned (),
        {| slug := slug w; documents := documents w; trace := trace w ++ [e] |}).

(** [doc(db, path, ...pathSegments)] of the Firestore SDK, for segments
    without ["/"] (the literals and the decimal ids of the source have none,
    and [slugify] is called with ["/"] among the characters to remove, line
    53). The call throws when [path] is empty; empty segments are dropped;
    and it throws when an odd number of segments is left. So
    [doc(db, "tournaments", slug)] throws for the empty slug. *)
Definition doc_ref (first : js_string) (pathSegments : list js_string)
  : outcome path :=
  if length first =? 0 then Thrown
  else
    let segments := filter (λ segment, segment ≠ []) (first :: pathSegments) in
    if Nat.even (length segments) then Returned segments else Thrown.

Definition doc (first : js_string) (pathSegments : list js_string) : M path :=
  λ w, (doc_ref first pathSegments, w).

(** [await getDoc(ref)] inside [try]: the snapshot (the document, if there is
    one), or the thrown error. *)
Definition getDoc (env : Env) (ref : path) : M (unit + option document) :=
  λ w, (Returned (if getDoc_throws env then inl () else inr (store w !! ref)), w).

(** [batch.commit()]: all the writes or none of them. [true] when the promise
    is fulfilled. *)
Definition commit (env : Env) (writes : list (path * document)) : M bool :=
  λ w,
    if commit_rejects env then
      (Returned false,
       {| slug := slug w; documents := documents w;
          trace := trace w ++ [Commit writes false] |})
    else
      (Returned true,
       {| slug := slug w;
          documents := foldl (λ m '(ref, d), <[ref := d]> m) (documents w) writes;
          trace := trace w ++ [Commit writes true] |}).

(** [arr.forEach(f)] where [f] hands back what it made. *)
Fixpoint forEach {A B} (f : A → M B) (arr : list A) : M (list B) :=
  match arr with
  | [] => mret []
  | x :: rest => f x ≫= λ y : B, forEach f rest ≫= λ ys : list B, mret (y :: ys)
  end.

(** ** The [title] field of the schema (lines 43-68) *)

(** The segments of [doc(db, "tournaments", newSlug)] for the slug of a
    title. *)
Definition title_ref (slugify : js_string → js_string) (title : js_string) : path :=
  [str "tournaments"; slugify title].

Definition msg_title_min : string :=
  "Tournament title must be at least 3 characters long".
Definition msg_title_refine : string := "Choose a different title".

Section Title.
(** [slugify(value, { lower: true, remove: ... })] of the [slugify]
    package. *)
Variable slugify : js_string → js_string.
Variable env : Env.

(** The asynchronous callback of [refine] (lines 46-68). The call of [doc]
    is before the [try], so its throw is not caught. *)
Definition title_refine (value : js_string) : M bool :=
  if length value =? 0 then
    setSlug [];; mret false
  else
    let newSlug := slugify value in
    setSlug newSlug;;
    doc (str "tournaments") [newSlug] ≫= λ tournamentRef : path,
    getDoc env tournamentRef ≫= λ tournamentSnapshot : unit + option document,
    match tournamentSnapshot with
    | inr (Some _) => mret false
    | inr None => mret true
    | inl _ => emit ConsoleError;; mret false
    end.

(** [z.string().min(3, ...).refine(..., ...)]: a string that fails [min]
    is still handed to the refinement, and each failed check reports its
    message. When the refinement throws, so does the validation. *)
Definition title_issues (value : js_string) : M (list string) :=
  title_refine value ≫= λ unique : bool,
  mret ((if length value <? 3 then [msg_title_min] else []) ++
        (if unique then [] else [msg_title_refine])).

(** The validation came back without an issue. *)
Definition title_accepted (value : js_string) (w : World) : bool :=
  bool_decide ((title_issues value w).1 = Returned []).
End Title.

(** ** [onSubmit] (lines 100-186) *)

Record Values := {
  v_title : js_string;
  v_players : js_string;
  v_pointSystem : PointSystem
}.

Definition msg_not_logged_in : string :=
  "You must be logged in to create a tournament.".

(** [round.id.toString()], [pair.id.toString()]. *)
Definition toString (n : nat) : js_string := str (pretty n).

(** The writes that [rounds.forEach] puts into the batch (lines 145-170),
    when no call of [doc] throws. *)
Definition round_writes (slug : js_string) (round : Round.t)
  : list (path * document) :=
  ([str "tournaments"; slug; str "rounds"; toString (Round.id round)],
   RoundDoc (Round.id round))
  :: ((λ pair,
         ([str "tournaments"; slug; str "rounds"; toString (Round.id round);
           str "pairs"; toString (Pair.id pair)],
          PairDoc pair)) <$> Round.pairs round).

(** [batch.set(pairRef, pair)] for a pair of a round (lines 157-169). *)
Definition set_pair (slug : js_string) (round : Round.t) (pair : Pair.t)
  : M (path * document) :=
  doc (str "tournaments")
      [slug; str "rounds"; toString (Round.id round);
       str "pairs"; toString (Pair.id pair)] ≫= λ pairRef : path,
  mret (pairRef, PairDoc pair).

(** The body of [rounds.forEach] (lines 145-170): the round, then its
    pairs. *)
Definition set_round (slug : js_string) (round : Round.t)
  : M (list (path * document)) :=
  doc (str "tournaments")
      [slug; str "rounds"; toString (Round.id round)] ≫= λ roundRef : path,
  forEach (set_pair slug round) (Round.pairs round)
    ≫= λ pairWrites : list (path * document),
  mret ((roundRef, RoundDoc (Round.id round)) :: pairWrites).

(** Lines 130-185, the part of [onSubmit] in which [numberOfRounds] is in
    scope. The batch is the list of its writes, in the order of the calls
    of [batch.set]. *)
Definition create (env : Env) (user : User) (values : Values)
    (formattedPlayers : list Player.t) (numberOfRounds : nat) : M unit :=
  emit (Scheduled formattedPlayers);;
  let rounds := roundRobinTournament formattedPlayers in
  getSlug ≫= λ slug : js_string,
  let tournament :=
    {| Tournament.slug := slug;
       Tournament.title := v_title values;
       Tournament.userSub := sub user;
       Tournament.players := formattedPlayers;
       Tournament.pointSystem := v_pointSystem values;
       Tournament.timestamp := now env |} in
  doc (str "tournaments") [Tournament.slug tournament]
    ≫= λ tournamentRef : path,
  forEach (set_round (Tournament.slug tournament)) rounds
    ≫= λ roundWrites : list (list (path * document)),
  let batch := (tournamentRef, TournamentDoc tournament) :: mjoin roundWrites in
  commit env batch ≫= λ fulfilled : bool,
  emit (ToastPromise fulfilled);;
  if fulfilled then
    (if closeRef_attached env then emit CloseClick else mret ());;
    emit RouterRefresh
  else emit ConsoleError.

Definition onSubmit (env : Env) (values : Values) : M unit :=
  match user env with
  | None => emit (ToastError msg_not_logged_in)
  | Some user =>
      let formattedPlayers := formattedPlayers (v_players values) in
      let numberOfRounds := numberOfRounds (length formattedPlayers) in
      create env user values formattedPlayers numberOfRounds
  end.

(** ** Reading a schedule

    Players are identified by their [id]. A pair is read as the id of
    [player1] and, unless it is a bye, the id of [player2]. *)

Definition count {A} (P : A → Prop) `{∀ x, Decision (P x)} (l : list A) : nat :=
  length (filter P l).

(** Renaming of both sides of a matchup. *)
Definition relabel {X Y} (g : X → Y) (m : X * option X) : Y * option Y :=
  (g m.1, g <$> m.2).

Definition keys (pair : Pair.t) : nat * option nat :=
  (Player.id (Pair.player1 pair), Player.id <$> Pair.player2 pair).

(** The matchup joins [a] and [b], in either order. *)
Definition meets (a b : nat) (m : nat * option nat) : Prop :=
  (m.1 = a ∧ m.2 = Some b) ∨ (m.1 = b ∧ m.2 = Some a).

(** [a] is one of the players of the matchup. *)
Definition plays (a : nat) (m : nat * option nat) : Prop :=
  m.1 = a ∨ m.2 = Some a.

(** The matchup is a bye, and the bye of [a]. *)
Definition bye (m : nat * option nat) : Prop := m.2 = None.
Definition bye_of (a : nat) (m : nat * option nat) : Prop := m.1 = a ∧ m.2 = None.

(** Both sides of the matchup are below [n]. *)
Definition below (n : nat) (m : nat * option nat) : Prop :=
  m.1 < n ∧ ∀ b, m.2 = Some b → b < n.

#[global] Instance meets_dec a b m : Decision (meets a b m).
Proof. unfold meets. apply _. Defined.
#[global] Instance plays_dec a m : Decision (plays a m).
Proof. unfold plays. apply _. Defined.
#[global] Instance bye_dec m : Decision (bye m).
Proof. unfold bye. apply _. Defined.
#[global] Instance bye_of_dec a m : Decision (bye_of a m).
Proof. unfold bye_of. apply _. Defined.
#[global] Instance below_dec n m : Decision (below n m).
Proof.
  unfold below. destruct m as [a [b|]]; simpl.
  - destruct (decide (a < n)); [|right; tauto].
    destruct (decide (b < n)); [left|right].
    + split; [done|]. intros ? [= <-]. done.
    + intros [_ Hb]. eauto.
  - destruct (decide (a < n)); [left|right; tauto].
    split; [done|]. intros ? [=].
Defined.

Definition all_pairs (rounds : list Round.t) : list Pair.t :=
  mjoin (Round.pairs <$> rounds).

(** The pair joins the players with ids [a] and [b]. *)
Definition joins (a b : nat) (pair : Pair.t) : Prop := meets a b (keys pair).
(** The player with id [a] is in the pair. *)
Definition appears (a : nat) (pair : Pair.t) : Prop := plays a (keys pair).
(** Real player against real player. *)
Definition is_real (pair : Pair.t) : Prop := is_Some (Pair.player2 pair).
Definition is_bye (pair : Pair.t) : Prop := Pair.player2 pair = None.
Definition is_bye_of (a : nat) (pair : Pair.t) : Prop := bye_of a (keys pair).

#[global] Instance joins_dec a b pair : Decision (joins a b pair).
Proof. unfold joins. apply _. Defined.
#[global] Instance appears_dec a pair : Decision (appears a pair).
Proof. unfold appears. apply _. Defined.
#[global] Instance is_real_dec pair : Decision (is_real pair).
Proof. unfold is_real. apply _. Defined.
#[global] Instance is_bye_dec pair : Decision (is_bye pair).
Proof. unfold is_bye. apply _. Defined.
#[global] Instance is_bye_of_dec a pair : Decision (is_bye_of a pair).
Proof. unfold is_bye_of. apply _. Defined.

(** The round count of a round robin of [n] players. *)
Definition round_count (n : nat) : nat := if Nat.even n then n - 1 else n.

(** The draw of the players [0 .. n-1], read as the claims read a schedule. *)
Record index_draw_ok (n : nat) : Prop := {
  ok_below : Forall (Forall (below n)) (draw (seq 0 n));
  ok_rounds : length (draw (seq 0 n)) = round_count n;
  ok_meet :
    Forall (λ i, Forall (λ j, i ≠ j →
      count (meets i j) (mjoin (draw (seq 0 n))) = 1) (seq 0 n)) (seq 0 n);
  ok_real : count (λ m, ¬ bye m) (mjoin (draw (seq 0 n))) = n * (n - 1) / 2;
  ok_round :
    Forall (λ round, Forall (λ i, count (plays i) round ≤ 1) (seq 0 n))
           (draw (seq 0 n));
  ok_bye_player :
    Nat.odd n → Forall (λ i, count (bye_of i) (mjoin (draw (seq 0 n))) = 1) (seq 0 n);
  ok_bye_round :
    Nat.odd n → Forall (λ round, count bye round = 1) (draw (seq 0 n))
}.

(** The player at a position of the input, by id. *)
Definition at_index (ids : list nat) (i : nat) : nat := ids !!! i.

(** ** Reading a run of [onSubmit] *)

Definition schedules (e : event) : Prop :=
  match e with Scheduled _ => True | _ => False end.
Definition persists (e : event) : Prop :=
  match e with Commit _ _ => True | _ => False end.

(** ** Sample inputs *)

Definition five_players : list Player.t := formattedPlayers (str "Ana;Ben;Cy;Dee;Eve").

Definition first_round : Round.t :=
  default (Round.mk 0 []) (head (roundRobinTournament five_players)).

(** A stand-in for the [slugify] package in the samples, and one for a
    title of which [slugify] leaves nothing. *)
Definition sample_slugify (value : js_string) : js_string := value.
Definition removing_slugify (value : js_string) : js_string := [].

Definition sample_user : User := {| sub := str "auth0|42" |}.
Definition signed_in : Env :=
  {| user := Some sample_user; now := 1700000000000;
     getDoc_throws := false; commit_rejects := false; closeRef_attached := true |}.
Definition signed_out : Env :=
  {| user := None; now := 1700000000000;
     getDoc_throws := false; commit_rejects := false; closeRef_attached := true |}.
Definition unreachable : Env :=
  {| user := Some sample_user; now := 1700000000000;
     getDoc_throws := true; commit_rejects := false; closeRef_attached := true |}.
Definition commit_failing : Env :=
  {| user := Some sample_user; now := 1700000000000;
     getDoc_throws := false; commit_rejects := true; closeRef_attached := true |}.
Definition empty_world : World := {| slug := []; documents := ∅; trace := [] |}.
(** The world after the title ["chess"] was typed into an empty store. *)
Definition typed_world : World :=
  {| slug := str "chess"; documents := ∅; trace := [] |}.
Definition chess_world : World :=
  {| slug := [];
     documents := {[ title_ref sample_slugify (str "chess") :=
                       TournamentDoc
                         {| Tournament.slug := str "chess";
                            Tournament.title := str "chess";
                            Tournament.userSub := sub sample_user;
                            Tournament.players := five_players;
                            Tournament.pointSystem := chess;
                            Tournament.timestamp := 1690000000000 |} ]};
     trace := [] |}.
(** The world after the title ["go"] was typed, with ["chess"] stored. *)
Definition second_world : World :=
  {| slug := str "go"; documents := documents chess_world; trace := [] |}.
Definition sample_values : Values :=
  {| v_title := str "chess"; v_players := str "Ana;Ben;Cy;Dee;Eve";
     v_pointSystem := chess |}.

(** ** Reading strings, batches and stores *)

(** The pieces put back together with [";"] between them
    ([pieces.join(";")]). *)
Fixpoint join (pieces : list js_string) : js_string :=
  match pieces with
  | [] => []
  | piece :: rest =>
      match rest with
      | [] => piece
      | _ :: _ => piece ++ semicolon :: join rest
      end
  end.

(** How many [";"] a string has. *)
Definition semicolons (value : js_string) : nat :=
  length (filter (λ c, c = semicolon) value).

(** The [tournament] object of lines 134-141, for the slug in the state. *)
Definition tournament_of (env : Env) (u : User) (values : Values) (slug : js_string)
  : Tournament.t :=
  {| Tournament.slug := slug;
     Tournament.title := v_title values;
     Tournament.userSub := sub u;
     Tournament.players := formattedPlayers (v_players values);
     Tournament.pointSystem := v_pointSystem values;
     Tournament.timestamp := now env |}.

(** The writes of the batch at [batch.commit()] (lines 143-170): the
    tournament first, then round by round. *)
Definition batch_of (tournament : Tournament.t) (rounds : list Round.t)
  : list (path * document) :=
  ([str "tournaments"; Tournament.slug tournament], TournamentDoc tournament)
  :: mjoin (round_writes (Tournament.slug tournament) <$> rounds).

(** The references of a round and of a pair of a round (lines 146-166). *)
Definition round_ref (slug : js_string) (round : Round.t) : path :=
  [str "tournaments"; slug; str "rounds"; toString (Round.id round)].
Definition pair_ref (slug : js_string) (round : Round.t) (pair : Pair.t) : path :=
  [str "tournaments"; slug; str "rounds"; toString (Round.id round);
   str "pairs"; toString (Pair.id pair)].

(** The reference is the tournament document of [slug] or lies below it. *)
Definition under (slug : js_string) (ref : path) : Prop :=
  ∃ rest, ref = str "tournaments" :: slug :: rest.

(** What a store holds after the writes of a batch, in order. *)
Definition apply_writes (m : gmap path document) (writes : list (path * document))
  : gmap path document :=
  foldl (λ m '(ref, d), <[ref := d]> m) m writes.

Arguments apply_writes : simpl never.
Arguments batch_of : simpl never.

(** A sample batch. *)
Definition sample_tournament : Tournament.t :=
  tournament_of signed_in sample_user sample_values (str "chess").
Definition sample_rounds : list Round.t := roundRobinTournament five_players.

(** * Properties *)

(** ** The [players] field *)

Example split_keeps_empty_entries : split (str "a;;b") = [str "a"; []; str "b"].
Proof. reflexivity. Qed.

Example split_of_empty : split [] = [[]].
Proof. reflexivity. Qed.

Example players_four_accepted : players_accepted (str "Ana;Ben;Cy;Dee") = true.
Proof. reflexivity. Qed.

Example players_trailing_semicolon_rejected :
  players_issues (str "Ana;Ben;Cy;Dee;") = [msg_players_count].
Proof. reflexivity. Qed.

Example players_three_rejected : players_accepted (str "Ana;Ben;Cy") = false.
Proof. reflexivity. Qed.

Lemma includes_elem_of (value : js_string) :
  includes value = true ↔ semicolon ∈ value.
Proof.
  unfold includes. induction value as [|c value IH]; simpl.
  - split; [done|]. by intros ?%elem_of_nil.
  - rewrite orb_true_iff, IH, elem_of_cons, N.eqb_eq.
    split; (intros [Hc|Hin]; [left; by symmetry|by right]).
Qed.

Lemma players_refine_spec (value : js_string) :
  players_refine value = true ↔
  4 ≤ length (split value) ≤ 8 ∧ ∀ entry, entry ∈ split value → entry ≠ [].
Proof.
  unfold players_refine, every.
  rewrite !andb_true_iff, !Nat.leb_le, forallb_forall.
  split.
  - intros [[H4 H8] Hall]. split; [done|]. intros entry Hin ->.
    apply list_elem_of_In, Hall in Hin. done.
  - intros [[H4 H8] Hall]. split; [done|]. intros entry Hin%list_elem_of_In.
    apply Nat.ltb_lt. specialize (Hall entry Hin).
    destruct entry; [done|simpl; lia].
Qed.

(** Claim C5. The [players] field accepts a string exactly when it contains
    a semicolon and splitting it on [";"] gives between 4 and 8 entries, all
    of them non-empty; every other string is rejected. *)
Theorem players_accepted_iff (value : js_string) :
  players_accepted value = true ↔ players_wellformed value.
Proof.
  unfold players_accepted, players_issues, players_wellformed.
  rewrite bool_decide_eq_true, <-includes_elem_of, <-players_refine_spec.
  destruct (includes value), (players_refine value); simpl;
    split; try done; intros [? ?]; done.
Qed.

(** ** [formattedPlayers] *)

(** Claim C6. The player list has one player per entry of the split string;
    the player made from the [i]-th entry has id [i], that entry as its name
    and 0 points. It holds of every string, accepted or not. *)
Theorem formattedPlayers_entries (players : js_string) (i : nat) (entry : js_string) :
  split players !! i = Some entry →
  length (formattedPlayers players) = length (split players) ∧
  formattedPlayers players !! i
  = Some {| Player.id := i; Player.name := entry; Player.points := 0 |}.
Proof.
  intros Hi. unfold formattedPlayers. split; [apply length_imap|].
  by rewrite list_lookup_imap, Hi.
Qed.

Lemma formattedPlayers_entries_witness :
  split (str "Ana;Ben;Cy;Dee") !! 2 = Some (str "Cy") ∧
  length (formattedPlayers (str "Ana;Ben;Cy;Dee")) = length (split (str "Ana;Ben;Cy;Dee")) ∧
  formattedPlayers (str "Ana;Ben;Cy;Dee") !! 2
  = Some {| Player.id := 2; Player.name := str "Cy"; Player.points := 0 |}.
Proof.
  assert (split (str "Ana;Ben;Cy;Dee") !! 2 = Some (str "Cy")) as H by reflexivity.
  split; [done|].
  exact (formattedPlayers_entries (str "Ana;Ben;Cy;Dee") 2 (str "Cy") H).
Defined.

Lemma formattedPlayers_ids (players : js_string) :
  Player.id <$> formattedPlayers players = seq 0 (length (split players)).
Proof.
  unfold formattedPlayers. apply list_eq. intros i.
  rewrite list_lookup_fmap, list_lookup_imap.
  destruct (split players !! i) as [entry|] eqn:Hi; simpl.
  - symmetry. apply lookup_seq. split; [done|]. by eapply lookup_lt_Some.
  - symmetry. apply lookup_seq_ge. by apply lookup_ge_None.
Qed.

Lemma players_accepted_refine (value : js_string) :
  players_accepted value = true → players_refine value = true.
Proof.
  unfold players_accepted, players_issues. intros Hacc%bool_decide_eq_true.
  by destruct (includes value), (players_refine value).
Qed.

(** What an accepted string hands to the scheduler: 4 to 8 players with
    pairwise different ids. *)
Lemma formattedPlayers_accepted (players : js_string) :
  players_accepted players = true →
  NoDup (Player.id <$> formattedPlayers players) ∧
  4 ≤ length (formattedPlayers players) ≤ 8.
Proof.
  intros [Hlen _]%players_accepted_refine%players_refine_spec. split.
  - rewrite formattedPlayers_ids. apply NoDup_seq.
  - unfold formattedPlayers. by rewrite length_imap.
Qed.

(** ** Calls that may throw *)

Lemma bind_returned {A B} (m : M A) (f : A → M B) (w w' : World) (a : A) :
  m w = (Returned a, w') → (m ≫= f) w = f a w'.
Proof. intros H. unfold mbind, M_bind. by rewrite H. Qed.

Lemma bind_thrown {A B} (m : M A) (f : A → M B) (w w' : World) :
  m w = (Thrown, w') → (m ≫= f) w = (Thrown, w').
Proof. intros H. unfold mbind, M_bind. by rewrite H. Qed.

Lemma filter_nonempty_id (segments : list js_string) :
  Forall (λ segment, segment ≠ []) segments →
  filter (λ segment, segment ≠ []) segments = segments.
Proof.
  induction 1 as [|segment segments Hs _ IH]; [done|].
  by rewrite filter_cons_True, IH.
Qed.

Lemma doc_ref_returns (first : js_string) (pathSegments : list js_string) :
  Forall (λ segment, segment ≠ []) (first :: pathSegments) →
  Nat.even (S (length pathSegments)) →
  doc_ref first pathSegments = Returned (first :: pathSegments).
Proof.
  intros Hall Heven. unfold doc_ref.
  destruct first as [|c first]; [by apply Forall_cons in Hall as [? _]|].
  simpl length at 1. simpl Nat.eqb. cbv iota.
  rewrite filter_nonempty_id by done. simpl length.
  by destruct (Nat.even (S (length pathSegments))).
Qed.

Lemma doc_ref_tournament (slug : js_string) :
  doc_ref (str "tournaments") [slug]
  = if length slug =? 0 then Thrown else Returned [str "tournaments"; slug].
Proof.
  destruct slug as [|c slug]; [reflexivity|].
  rewrite doc_ref_returns; [done| |done].
  repeat constructor; done.
Qed.

Lemma store_lookup (w : World) (ref : path) :
  store w !! ref = if is_key ref then documents w !! ref else None.
Proof.
  unfold store. rewrite map_lookup_filter.
  destruct (documents w !! ref) as [d|]; simpl.
  - destruct (is_key ref) eqn:Hkey.
    + rewrite option_guard_True; [done|]. by apply Is_true_true.
    + rewrite option_guard_False; [done|]. by intros ?.
  - by destruct (is_key ref).
Qed.

Lemma store_is_key (w : World) (ref : path) :
  is_Some (store w !! ref) → is_key ref = true.
Proof.
  rewrite store_lookup. destruct (is_key ref); [done|]. by intros [? ?].
Qed.

Lemma title_ref_is_key (slugify : js_string → js_string) (title : js_string) :
  is_key (title_ref slugify title) = negb (length (slugify title) =? 0).
Proof.
  unfold is_key, title_ref. simpl. by destruct (length (slugify title) =? 0).
Qed.

(** ** The [title] field *)

Section TitleFacts.
Variable slugify : js_string → js_string.
Variables (env : Env) (w : World) (title : js_string).

Lemma title_refine_run :
  title_refine slugify env title w
  = if length title =? 0 then
      (Returned false,
       {| slug := []; documents := documents w; trace := trace w |})
    else if length (slugify title) =? 0 then
      (Thrown,
       {| slug := slugify title; documents := documents w; trace := trace w |})
    else if getDoc_throws env then
      (Returned false,
       {| slug := slugify title; documents := documents w;
          trace := trace w ++ [ConsoleError] |})
    else
      (Returned (bool_decide (store w !! title_ref slugify title = None)),
       {| slug := slugify title; documents := documents w; trace := trace w |}).
Proof.
  unfold title_refine. destruct (length title =? 0); [done|].
  unfold mbind at 1. unfold M_bind at 1. simpl.
  unfold mbind at 1. unfold M_bind at 1. unfold doc. rewrite doc_ref_tournament.
  destruct (length (slugify title) =? 0); [done|].
  unfold mbind, M_bind, getDoc, emit, mret, M_ret. simpl.
  destruct (getDoc_throws env); [done|].
  change (store _ !! _) with (store w !! title_ref slugify title).
  by destruct (store w !! title_ref slugify title).
Qed.

Lemma title_refine_result :
  (title_refine slugify env title w).1
  = if length title =? 0 then Returned false
    else if length (slugify title) =? 0 then Thrown
    else Returned (bool_decide (getDoc_throws env = false ∧
                                store w !! title_ref slugify title = None)).
Proof.
  rewrite title_refine_run. destruct (length title =? 0); [done|].
  destruct (length (slugify title) =? 0); [done|].
  destruct (getDoc_throws env); simpl; f_equal; try done.
  apply bool_decide_ext. tauto.
Qed.

Lemma title_issues_result :
  (title_issues slugify env title w).1
  = match (title_refine slugify env title w).1 with
    | Returned unique =>
        Returned ((if length title <? 3 then [msg_title_min] else []) ++
                  (if unique then [] else [msg_title_refine]))
    | Thrown => Thrown
    end.
Proof.
  unfold title_issues. unfold mbind at 1. unfold M_bind.
  by destruct (title_refine slugify env title w) as [[unique|] w'].
Qed.

Lemma title_issues_world :
  (title_issues slugify env title w).2 = (title_refine slugify env title w).2.
Proof.
  unfold title_issues. unfold mbind at 1. unfold M_bind.
  by destruct (title_refine slugify env title w) as [[unique|] w'].
Qed.

Lemma title_accepted_iff :
  title_accepted slugify env title w = true ↔
  3 ≤ length title ∧ slugify title ≠ [] ∧ getDoc_throws env = false ∧
  store w !! title_ref slugify title = None.
Proof.
  unfold title_accepted. rewrite bool_decide_eq_true, title_issues_result.
  rewrite title_refine_result.
  destruct (length title =? 0) eqn:Hzero.
  { apply Nat.eqb_eq in Hzero. split; [|lia]. by destruct (length title <? 3). }
  destruct (length (slugify title) =? 0) eqn:Hslug.
  { apply Nat.eqb_eq in Hslug. split; [done|]. intros (_ & Hne & _).
    by destruct (slugify title). }
  apply Nat.eqb_neq in Hslug.
  assert (slugify title ≠ []) as Hne by (by intros Heq; rewrite Heq in Hslug).
  destruct (length title <? 3) eqn:Hlen.
  - apply Nat.ltb_lt in Hlen. split; [|lia]. by case_bool_decide.
  - apply Nat.ltb_ge in Hlen. case_bool_decide as Hd; simpl.
    + split; [|done]. intros _. tauto.
    + split; [done|]. intros (_ & _ & ? & ?). tauto.
Qed.
End TitleFacts.




(** A title of which [slugify] leaves nothing (["!!!"]): the call of [doc]
    throws outside the [try], so the validation throws after the slug state
    was set to the empty slug; nothing is looked up or logged, and the title
    is not accepted. *)
Lemma title_empty_slug_throws (slugify : js_string → js_string) (env : Env)
    (w : World) (title : js_string) :
  length title ≠ 0 → slugify title = [] →
  title_issues slugify env title w
  = (Thrown, {| slug := []; documents := documents w; trace := trace w |}) ∧
  title_accepted slugify env title w = false.
Proof.
  intros Hlen%Nat.eqb_neq Hslug.
  assert (title_refine slugify env title w
          = (Thrown, {| slug := []; documents := documents w; trace := trace w |}))
    as Hrun by (by rewrite title_refine_run, Hlen, Hslug).
  split.
  - unfold title_issues. by rewrite (bind_thrown _ _ _ _ Hrun).
  - unfold title_accepted, title_issues. by rewrite (bind_thrown _ _ _ _ Hrun).
Qed.

Example title_bangs_throws :
  (title_issues removing_slugify signed_in (str "!!!") empty_world).1 = Thrown.
Proof. reflexivity. Qed.

(** Claim C10. When [getDoc] throws, the callback of [refine] returns
    [false], as it does when the document is found; the issues reported for
    the title are the same in both cases, ["Choose a different title"] is
    among them, and the title is rejected by the validation. (The failed
    lookup is also logged with [console.error]; the found document is not.) *)
Theorem getDoc_failure_rejects_like_duplicate (slugify : js_string → js_string)
    (failing finding : Env) (w w' : World) (title : js_string) :
  getDoc_throws failing = true →
  getDoc_throws finding = false →
  is_Some (store w' !! title_ref slugify title) →
  (title_refine slugify failing title w).1 = Returned false ∧
  (title_refine slugify finding title w').1 = Returned false ∧
  (title_issues slugify failing title w).1 = (title_issues slugify finding title w').1 ∧
  (∃ issues, (title_issues slugify failing title w).1 = Returned issues ∧
             (msg_title_refine ∈ issues)) ∧
  title_accepted slugify failing title w = false.
Proof.
  intros Hfail Hfind Hdoc.
  assert ((length (slugify title) =? 0) = false) as Hslug.
  { apply store_is_key in Hdoc. rewrite title_ref_is_key in Hdoc.
    by destruct (length (slugify title) =? 0). }
  destruct Hdoc as [d Hd].
  assert ((title_refine slugify failing title w).1 = Returned false) as Hr1.
  { rewrite title_refine_result, Hslug, Hfail.
    destruct (length title =? 0); [done|f_equal].
    all: try (apply bool_decide_eq_false; by intros [? _]). }
  assert ((title_refine slugify finding title w').1 = Returned false) as Hr2.
  { rewrite title_refine_result, Hslug, Hd.
    destruct (length title =? 0); [done|f_equal].
    all: try (apply bool_decide_eq_false; by intros [_ ?]). }
  split; [done|]. split; [done|].
  rewrite !title_issues_result, Hr1, Hr2. split; [done|]. split.
  - eexists. split; [done|]. apply elem_of_app. right. by left.
  - apply not_true_is_false. rewrite title_accepted_iff, Hfail.
    by intros (_ & _ & ? & _).
Qed.

Lemma getDoc_failure_rejects_like_duplicate_witness :
  getDoc_throws unreachable = true ∧
  getDoc_throws signed_in = false ∧
  is_Some (store chess_world !! title_ref sample_slugify (str "chess")) ∧
  (title_refine sample_slugify unreachable (str "chess") empty_world).1 = Returned false ∧
  (title_refine sample_slugify signed_in (str "chess") chess_world).1 = Returned false ∧
  (title_issues sample_slugify unreachable (str "chess") empty_world).1
  = (title_issues sample_slugify signed_in (str "chess") chess_world).1 ∧
  (∃ issues,
     (title_issues sample_slugify unreachable (str "chess") empty_world).1
     = Returned issues ∧ (msg_title_refine ∈ issues)) ∧
  title_accepted sample_slugify unreachable (str "chess") empty_world = false.
Proof.
  assert (getDoc_throws unreachable = true) as Hfail by reflexivity.
  assert (getDoc_throws signed_in = false) as Hfind by reflexivity.
  assert (is_Some (store chess_world !! title_ref sample_slugify (str "chess")))
    as Htaken by compute_done.
  do 3 (split; [done|]).
  exact (getDoc_failure_rejects_like_duplicate sample_slugify unreachable signed_in
           empty_world chess_world (str "chess") Hfail Hfind Htaken).
Defined.

(** The failed lookup leaves one more trace than the found document. *)
Lemma getDoc_failure_logged (slugify : js_string → js_string) (env : Env) (w : World)
    (title : js_string) :
  length title ≠ 0 → slugify title ≠ [] → getDoc_throws env = true →
  trace (title_refine slugify env title w).2 = trace w ++ [ConsoleError].
Proof.
  intros Hlen%Nat.eqb_neq Hslug Hfail. rewrite title_refine_run, Hlen, Hfail.
  by destruct (slugify title).
Qed.

(** ** [onSubmit] *)

Lemma pretty_N_go_length (x : N) (s : string) :
  String.length s ≤ String.length (pretty_N_go x s).
Proof.
  revert s. induction (N.lt_wf_0 x) as [x _ IH]; intros s.
  assert (x = 0 ∨ 0 < x)%N as [->|?] by lia; [by rewrite pretty_N_go_0|].
  rewrite pretty_N_go_step by done.
  etrans; [|by eapply IH, N.div_lt]. simpl. lia.
Qed.

Lemma toString_nonempty (n : nat) : toString n ≠ [].
Proof.
  unfold toString, str, pretty, pretty_nat, pretty, pretty_N.
  case_decide as Hn; [done|].
  assert (0 < N.of_nat n)%N as Hpos by lia.
  rewrite pretty_N_go_step by done.
  pose proof (pretty_N_go_length (N.of_nat n `div` 10)
    (String (pretty_N_char (N.of_nat n `mod` 10)) "")) as Hlen.
  destruct (pretty_N_go _ _); [simpl in Hlen; lia|done].
Qed.

Lemma forEach_returns {A B} (f : A → M B) (g : A → B) (arr : list A) (w : World) :
  (∀ x, x ∈ arr → f x w = (Returned (g x), w)) →
  forEach f arr w = (Returned (g <$> arr), w).
Proof.
  induction arr as [|x rest IH]; intros Hf; [done|]. simpl.
  rewrite (bind_returned _ _ w w (g x)) by (apply Hf; left).
  rewrite (bind_returned _ _ w w (g <$> rest)); [done|].
  apply IH. intros y Hy. apply Hf. by right.
Qed.

Lemma set_pair_returns (slug : js_string) (round : Round.t) (pair : Pair.t)
    (w : World) :
  slug ≠ [] →
  set_pair slug round pair w
  = (Returned ([str "tournaments"; slug; str "rounds"; toString (Round.id round);
                str "pairs"; toString (Pair.id pair)], PairDoc pair), w).
Proof.
  intros Hslug. unfold set_pair.
  erewrite bind_returned; [done|]. unfold doc.
  rewrite doc_ref_returns; [done| |done].
  repeat constructor; done || apply toString_nonempty.
Qed.

Lemma set_round_returns (slug : js_string) (round : Round.t) (w : World) :
  slug ≠ [] → set_round slug round w = (Returned (round_writes slug round), w).
Proof.
  intros Hslug. unfold set_round.
  erewrite bind_returned; cycle 1.
  { unfold doc. rewrite doc_ref_returns; [done| |done].
    repeat constructor; done || apply toString_nonempty. }
  erewrite bind_returned; [done|].
  apply (forEach_returns _ (λ pair,
    ([str "tournaments"; slug; str "rounds"; toString (Round.id round);
      str "pairs"; toString (Pair.id pair)], PairDoc pair))).
  intros pair _. by apply set_pair_returns.
Qed.

Lemma onSubmit_run (env : Env) (u : User) (values : Values) (w : World) :
  user env = Some u →
  let players := formattedPlayers (v_players values) in
  let batch := batch_of (tournament_of env u values (slug w))
                        (roundRobinTournament players) in
  onSubmit env values w
  = if length (slug w) =? 0 then
      (Thrown, {| slug := slug w; documents := documents w;
                  trace := trace w ++ [Scheduled players] |})
    else if commit_rejects env then
      (Returned (),
       {| slug := slug w; documents := documents w;
          trace := trace w ++ [Scheduled players; Commit batch false;
                               ToastPromise false; ConsoleError] |})
    else
      (Returned (),
       {| slug := slug w; documents := apply_writes (documents w) batch;
          trace := trace w ++ [Scheduled players; Commit batch true;
                               ToastPromise true]
                           ++ (if closeRef_attached env then [CloseClick] else [])
                           ++ [RouterRefresh] |}).
Proof.
  intros Huser. simpl. unfold onSubmit, create. rewrite Huser.
  erewrite bind_returned; [|reflexivity].
  erewrite bind_returned; [|reflexivity]. cbn [slug Tournament.slug].
  destruct (length (slug w) =? 0) eqn:Hslug.
  { erewrite bind_thrown; [done|]. unfold doc. by rewrite doc_ref_tournament, Hslug. }
  assert (slug w ≠ []) as Hne by (by intros Heq; rewrite Heq in Hslug).
  erewrite bind_returned; cycle 1.
  { unfold doc. by rewrite doc_ref_tournament, Hslug. }
  erewrite bind_returned; cycle 1.
  { apply (forEach_returns _ (round_writes (slug w))).
    intros round _. by apply set_round_returns. }
  unfold mbind, M_bind, commit, emit, mret, M_ret. simpl.
  destruct (commit_rejects env); simpl; [by rewrite <-!app_assoc|].
  destruct (closeRef_attached env); simpl; by rewrite <-!app_assoc.
Qed.

(** Claim C8. Without a signed-in user [onSubmit] only shows the error
    toast: the scheduler is not called, no batch is committed, and the store
    is as it was. *)
Theorem onSubmit_unauthenticated (env : Env) (values : Values) (w : World) :
  user env = None →
  ∃ w', onSubmit env values w = (Returned (), w') ∧
        store w' = store w ∧
        trace w' = trace w ++ [ToastError msg_not_logged_in] ∧
        Forall (λ e, ¬ schedules e ∧ ¬ persists e) (drop (length (trace w)) (trace w')).
Proof.
  intros Huser. unfold onSubmit. rewrite Huser. eexists. split; [reflexivity|].
  simpl. split; [done|]. split; [done|].
  rewrite drop_app_length. repeat constructor; by intros [].
Qed.

Lemma onSubmit_unauthenticated_witness :
  user signed_out = None ∧
  ∃ w', onSubmit signed_out sample_values empty_world = (Returned (), w') ∧
        store w' = store empty_world ∧
        trace w' = trace empty_world ++ [ToastError msg_not_logged_in] ∧
        Forall (λ e, ¬ schedules e ∧ ¬ persists e)
               (drop (length (trace empty_world)) (trace w')).
Proof.
  assert (user signed_out = None) as H by reflexivity.
  split; [done|].
  exact (onSubmit_unauthenticated signed_out sample_values empty_world H).
Defined.

(** With a signed-in user the scheduler is called on [formattedPlayers], and
    for a non-empty slug a batch is committed. *)
Lemma onSubmit_authenticated (env : Env) (u : User) (values : Values) (w : World) :
  user env = Some u →
  (∃ rest,
     trace (onSubmit env values w).2
     = trace w ++ Scheduled (formattedPlayers (v_players values)) :: rest) ∧
  (slug w ≠ [] →
   ∃ writes rest,
     trace (onSubmit env values w).2
     = trace w ++ Scheduled (formattedPlayers (v_players values))
               :: Commit writes (negb (commit_rejects env)) :: rest).
Proof.
  intros Huser. rewrite (onSubmit_run env u) by done. split.
  - destruct (length (slug w) =? 0); [by eexists|].
    destruct (commit_rejects env); simpl; by eexists.
  - intros Hne. destruct (slug w) as [|c rest]; [done|]. simpl.
    destruct (commit_rejects env); simpl; by do 2 eexists.
Qed.

(** Claim C9. For a player count [N] from 4 to 8 the switch gives [N - 1]
    when [N] is even and [N] when it is odd, and the rest of [onSubmit] does
    the same whatever the value of [numberOfRounds] is. *)
Theorem numberOfRounds_formula_and_unused (N : nat) (env : Env) (u : User)
    (values : Values) (players : list Player.t) :
  4 ≤ N ≤ 8 →
  numberOfRounds N = round_count N ∧
  ∀ n1 n2 w, create env u values players n1 w = create env u values players n2 w.
Proof.
  intros [Hlo Hhi]. split; [|done].
  do 4 (destruct N as [|N]; [lia|]).
  do 5 (destruct N as [|N]; [reflexivity|]). lia.
Qed.

Lemma numberOfRounds_formula_and_unused_witness :
  4 ≤ 5 ≤ 8 ∧
  numberOfRounds 5 = round_count 5 ∧
  ∀ n1 n2 w,
    create signed_in sample_user sample_values five_players n1 w
    = create signed_in sample_user sample_values five_players n2 w.
Proof.
  assert (4 ≤ 5 ≤ 8) as H by lia. split; [done|].
  exact (numberOfRounds_formula_and_unused 5 signed_in sample_user
           sample_values five_players H).
Defined.

(** ** The scheduler

    Who meets whom depends on the positions in the input only: the draw of
    a player list is the draw of the positions [0 .. n-1] with each position
    replaced by its player. The draws of 4 to 8 positions are checked by
    evaluation, and carried over to every list of players with pairwise
    different ids. *)

(** Four players: three rounds of two pairs, the six pairings once each. *)
Example draw_of_four :
  draw [0; 1; 2; 3]
  = [[(0, Some 2); (1, Some 3)]; [(0, Some 1); (3, Some 2)]; [(0, Some 3); (2, Some 1)]].
Proof. reflexivity. Qed.

(** Five players: five rounds, each of two pairings and one bye. *)
Example draw_of_five :
  draw [0; 1; 2; 3; 4]
  = [[(0, Some 3); (1, None); (2, Some 4)];
     [(0, Some 2); (4, None); (1, Some 3)];
     [(0, Some 1); (4, Some 3); (2, None)];
     [(0, None); (3, Some 2); (4, Some 1)];
     [(0, Some 4); (2, Some 1); (3, None)]].
Proof. reflexivity. Qed.

Example first_round_of_five :
  keys <$> Round.pairs first_round = [(0, Some 3); (1, None); (2, Some 4)]
  ∧ Round.id first_round = 1
  ∧ Pair.id <$> Round.pairs first_round = [0; 1; 2].
Proof. by vm_compute. Qed.

Lemma index_draw_ok_4_8 n : 4 ≤ n ≤ 8 → index_draw_ok n.
Proof.
  intros [Hlo Hhi].
  do 4 (destruct n as [|n]; [lia|]).
  do 5 (destruct n as [|n]; [split; compute_done|]).
  lia.
Qed.

Section SlotNaturality.
Context {X Y : Type} (g : X → Y).

Lemma rotate_fmap (circle : list X) : rotate (g <$> circle) = g <$> rotate circle.
Proof.
  destruct circle as [|fixed rotating]; [done|]. simpl.
  by rewrite fmap_app, fmap_drop, fmap_take, length_fmap.
Qed.

Lemma round_slots_fmap (circle : list X) :
  round_slots (g <$> circle) = prod_map g g <$> round_slots circle.
Proof.
  unfold round_slots. rewrite length_fmap.
  induction (slot_pairs (length circle)) as [|[i j] ixs IH]; [done|].
  csimpl. rewrite !list_lookup_fmap, IH.
  by destruct (circle !! i), (circle !! j).
Qed.

Lemma rounds_from_fmap k (circle : list X) :
  rounds_from k (g <$> circle)
  = fmap (M:=list) (prod_map g g) <$> rounds_from k circle.
Proof.
  revert circle. induction k as [|k IH]; intros circle; [done|].
  simpl. by rewrite round_slots_fmap, rotate_fmap, IH.
Qed.
End SlotNaturality.

Section DrawNaturality.
Context {X Y : Type} (g : X → Y).

Lemma seat_fmap (players : list X) :
  seat (g <$> players) = fmap (M:=option) g <$> seat players.
Proof.
  unfold seat. rewrite fmap_app, length_fmap, <-!list_fmap_compose.
  by destruct (Nat.odd _).
Qed.

Lemma matchup_fmap (met : list (option X * option X)) :
  omap matchup (prod_map (fmap g) (fmap g) <$> met) = relabel g <$> omap matchup met.
Proof.
  induction met as [|[[p|] [q|]] met IH]; csimpl; by rewrite ?IH.
Qed.

Lemma draw_fmap (players : list X) :
  draw (g <$> players) = fmap (M:=list) (relabel g) <$> draw players.
Proof.
  unfold draw. rewrite seat_fmap, length_fmap, rounds_from_fmap.
  rewrite <-!list_fmap_compose. apply list_fmap_ext. intros _ met _. simpl.
  apply matchup_fmap.
Qed.
End DrawNaturality.

Lemma keys_roundRobinTournament (players : list Player.t) :
  (λ round, keys <$> Round.pairs round) <$> roundRobinTournament players
  = draw (Player.id <$> players).
Proof.
  unfold roundRobinTournament. rewrite draw_fmap, fmap_imap.
  rewrite <-(imap_const (fmap (M:=list) (relabel Player.id))). apply imap_ext.
  intros r met _. simpl. rewrite fmap_imap, <-(imap_const (relabel Player.id)).
  apply imap_ext. by intros k [p1 p2] _.
Qed.

Lemma draw_index (ids : list nat) :
  draw ids = fmap (M:=list) (relabel (at_index ids)) <$> draw (seq 0 (length ids)).
Proof.
  rewrite <-draw_fmap. f_equal.
  apply list_eq. intros i. rewrite list_lookup_fmap.
  destruct (decide (i < length ids)) as [Hi|Hi].
  - rewrite lookup_seq_lt by done. simpl.
    by rewrite list_lookup_lookup_total_lt.
  - rewrite lookup_seq_ge, lookup_ge_None_2 by lia. done.
Qed.

Lemma count_fmap {A B} (f : A → B) (P : B → Prop) (Q : A → Prop)
    `{∀ y, Decision (P y)} `{∀ x, Decision (Q x)} (l : list A) :
  (∀ x, x ∈ l → P (f x) ↔ Q x) → count P (f <$> l) = count Q l.
Proof.
  unfold count. induction l as [|x l IH]; intros HPQ; [done|].
  rewrite fmap_cons, !filter_cons.
  assert (P (f x) ↔ Q x) as Hx by (apply HPQ; left).
  assert (length (filter P (f <$> l)) = length (filter Q l)) as Hl.
  { apply IH. intros y Hy. apply HPQ. by right. }
  destruct (decide (P (f x))), (decide (Q x)); simpl; tauto || by rewrite Hl.
Qed.

Lemma count_none {A} (P : A → Prop) `{∀ x, Decision (P x)} (l : list A) :
  (∀ x, x ∈ l → ¬ P x) → count P l = 0.
Proof.
  unfold count. induction l as [|x l IH]; intros HP; [done|].
  rewrite filter_cons_False by (apply HP; left).
  apply IH. intros y Hy. apply HP. by right.
Qed.

Lemma fmap_join {A B} (f : A → B) (ls : list (list A)) :
  f <$> mjoin ls = mjoin (fmap (M:=list) f <$> ls).
Proof.
  induction ls as [|l ls IH]; [done|]. simpl. by rewrite fmap_app, IH.
Qed.

Lemma keys_all_pairs (players : list Player.t) :
  keys <$> all_pairs (roundRobinTournament players)
  = mjoin (draw (Player.id <$> players)).
Proof.
  unfold all_pairs. rewrite fmap_join, <-list_fmap_compose.
  by rewrite <-keys_roundRobinTournament.
Qed.

(** Replacing positions by pairwise different ids keeps who meets whom. *)
Section Transport.
Variables (ids : list nat) (n : nat).
Hypothesis ids_NoDup : NoDup ids.
Hypothesis ids_length : length ids = n.

Local Abbreviation h := (at_index ids).

Lemma h_lookup i : i < n → ids !! i = Some (h i).
Proof. intros Hi. apply list_lookup_lookup_total_lt. by rewrite ids_length. Qed.

Lemma h_elem_of i : i < n → h i ∈ ids.
Proof. intros Hi. apply list_elem_of_lookup. exists i. by apply h_lookup. Qed.

Lemma h_inj i j : i < n → j < n → h i = h j → i = j.
Proof.
  intros Hi Hj Hij. apply (NoDup_lookup ids i j (h i)); [done|by apply h_lookup|].
  rewrite Hij. by apply h_lookup.
Qed.

Lemma h_surj a : a ∈ ids → ∃ i, i < n ∧ h i = a.
Proof.
  intros [i Hi]%list_elem_of_lookup. exists i. split.
  - rewrite <-ids_length. by eapply lookup_lt_Some.
  - by apply list_lookup_total_correct.
Qed.

Lemma meets_relabel i j m :
  below n m → i < n → j < n → meets (h i) (h j) (relabel h m) ↔ meets i j m.
Proof.
  intros [H1 H2] Hi Hj. destruct m as [a [b|]]; unfold meets; simpl in *.
  - specialize (H2 b eq_refl). split.
    + intros [[Ha [= Hb]]|[Ha [= Hb]]]; [left|right];
        (split; [|f_equal]); by apply h_inj.
    + intros [[-> [= ->]]|[-> [= ->]]]; [left|right]; done.
  - split; intros [[_ [=]]|[_ [=]]].
Qed.

Lemma plays_relabel i m : below n m → i < n → plays (h i) (relabel h m) ↔ plays i m.
Proof.
  intros [H1 H2] Hi. destruct m as [a [b|]]; unfold plays; simpl in *.
  - specialize (H2 b eq_refl). split.
    + intros [Ha|[= Hb]]; [left|right; f_equal]; by apply h_inj.
    + intros [->|[= ->]]; [left|right]; done.
  - split.
    + intros [Ha|[=]]. left. by apply h_inj.
    + intros [->|[=]]. by left.
Qed.

Lemma plays_relabel_elem_of a m : below n m → plays a (relabel h m) → a ∈ ids.
Proof.
  intros [H1 H2]. destruct m as [i [j|]]; unfold plays; simpl in *.
  - specialize (H2 j eq_refl). intros [<-|[= <-]]; by apply h_elem_of.
  - intros [<-|[=]]. by apply h_elem_of.
Qed.

Lemma bye_relabel m : bye (relabel h m) ↔ bye m.
Proof. destruct m as [a [b|]]; unfold bye; simpl; split; done. Qed.

Lemma bye_of_relabel i m :
  below n m → i < n → bye_of (h i) (relabel h m) ↔ bye_of i m.
Proof.
  intros [H1 H2] Hi. destruct m as [a [b|]]; unfold bye_of; simpl in *.
  - split; intros [_ [=]].
  - split.
    + intros [Ha _]. split; [by apply h_inj|done].
    + intros [-> _]. done.
Qed.
End Transport.

(** The schedule of a list of players with pairwise different ids, whose
    length is one for which the draw of positions has been checked. *)
Section Schedule.
Variable players : list Player.t.
Hypothesis ids_NoDup : NoDup (Player.id <$> players).
Hypothesis index_ok : index_draw_ok (length players).

Local Abbreviation ids := (Player.id <$> players).
Local Abbreviation h := (at_index ids).
Local Abbreviation n := (length players).

Lemma player_index p : p ∈ players → ∃ i, i < n ∧ h i = Player.id p.
Proof.
  intros Hp. apply (h_surj ids n); [apply length_fmap|].
  by apply list_elem_of_fmap_2.
Qed.

Lemma all_pairs_index :
  keys <$> all_pairs (roundRobinTournament players)
  = relabel h <$> mjoin (draw (seq 0 n)).
Proof.
  rewrite keys_all_pairs, draw_index, length_fmap. by rewrite fmap_join.
Qed.

Lemma round_index round :
  round ∈ roundRobinTournament players →
  ∃ met, met ∈ draw (seq 0 n) ∧ keys <$> Round.pairs round = relabel h <$> met.
Proof.
  intros Hr.
  apply (list_elem_of_fmap_2 (λ round, keys <$> Round.pairs round)) in Hr.
  rewrite keys_roundRobinTournament, draw_index, length_fmap in Hr.
  apply list_elem_of_fmap in Hr as (met & -> & Hmet). eauto.
Qed.

Lemma all_below m : m ∈ mjoin (draw (seq 0 n)) → below n m.
Proof. revert m. apply Forall_forall, Forall_join, index_ok. Qed.

Lemma round_below met m : met ∈ draw (seq 0 n) → m ∈ met → below n m.
Proof.
  intros Hmet. revert m. apply Forall_forall.
  revert met Hmet. apply Forall_forall, index_ok.
Qed.

Lemma count_joins p q :
  p ∈ players → q ∈ players → Player.id p ≠ Player.id q →
  count (joins (Player.id p) (Player.id q))
        (all_pairs (roundRobinTournament players)) = 1.
Proof.
  intros (i & Hi & <-)%player_index (j & Hj & <-)%player_index Hne.
  transitivity (count (meets i j) (mjoin (draw (seq 0 n)))).
  - transitivity (count (meets (h i) (h j))
                    (keys <$> all_pairs (roundRobinTournament players))).
    { symmetry. by apply count_fmap. }
    rewrite all_pairs_index. apply count_fmap. intros m Hm.
    apply (meets_relabel ids n); [done|apply length_fmap|by apply all_below|done..].
  - pose proof (ok_meet _ index_ok) as Hm.
    rewrite Forall_forall in Hm. specialize (Hm i).
    rewrite Forall_forall in Hm. apply Hm; [apply elem_of_seq; lia..|].
    intros ->. done.
Qed.

Lemma count_is_real :
  count is_real (all_pairs (roundRobinTournament players)) = n * (n - 1) / 2.
Proof.
  rewrite <-(ok_real _ index_ok).
  transitivity (count (λ m, ¬ bye m)
                  (keys <$> all_pairs (roundRobinTournament players))).
  { symmetry. apply count_fmap. intros pair _. unfold is_real, bye, keys. simpl.
    rewrite fmap_None, <-not_eq_None_Some. done. }
  rewrite all_pairs_index. apply count_fmap.
  intros m _. by rewrite bye_relabel.
Qed.

Lemma length_rounds : length (roundRobinTournament players) = round_count n.
Proof.
  rewrite <-(ok_rounds _ index_ok).
  rewrite <-(length_fmap (λ round, keys <$> Round.pairs round)).
  by rewrite keys_roundRobinTournament, draw_index, !length_fmap.
Qed.

Lemma count_appears round a :
  round ∈ roundRobinTournament players →
  count (appears a) (Round.pairs round) ≤ 1.
Proof.
  intros (met & Hmet & Hkeys)%round_index.
  assert (count (appears a) (Round.pairs round)
          = count (plays a) (relabel h <$> met)) as ->.
  { rewrite <-Hkeys. symmetry. by apply count_fmap. }
  destruct (decide (a ∈ ids)) as [Hin|Ha].
  - destruct (h_surj ids n (length_fmap _ _) a Hin) as (i & Hi & <-).
    transitivity (count (plays i) met).
    + apply Nat.eq_le_incl, count_fmap. intros m Hm.
      apply (plays_relabel ids n); [done|apply length_fmap| |done].
      by apply (round_below met).
    + pose proof (ok_round _ index_ok) as Hr.
      rewrite Forall_forall in Hr. specialize (Hr met Hmet).
      rewrite Forall_forall in Hr. apply Hr, elem_of_seq. lia.
  - rewrite count_none; [lia|].
    intros m' (m & -> & Hm)%list_elem_of_fmap Hplays. apply Ha.
    apply (plays_relabel_elem_of ids n (length_fmap _ _) a m); [|done].
    by apply (round_below met).
Qed.

Lemma count_is_bye_of p :
  Nat.odd n → p ∈ players →
  count (is_bye_of (Player.id p)) (all_pairs (roundRobinTournament players)) = 1.
Proof.
  intros Hodd (i & Hi & <-)%player_index.
  transitivity (count (bye_of i) (mjoin (draw (seq 0 n)))).
  - transitivity (count (bye_of (h i))
                    (keys <$> all_pairs (roundRobinTournament players))).
    { symmetry. by apply count_fmap. }
    rewrite all_pairs_index. apply count_fmap. intros m Hm.
    apply (bye_of_relabel ids n); [done|apply length_fmap|by apply all_below|done].
  - pose proof (ok_bye_player _ index_ok Hodd) as Hb.
    rewrite Forall_forall in Hb. apply Hb, elem_of_seq. lia.
Qed.

Lemma count_is_bye round :
  Nat.odd n → round ∈ roundRobinTournament players →
  count is_bye (Round.pairs round) = 1.
Proof.
  intros Hodd (met & Hmet & Hkeys)%round_index.
  transitivity (count bye met).
  - transitivity (count bye (keys <$> Round.pairs round)).
    { symmetry. apply count_fmap. intros pair _. unfold is_bye, bye, keys. simpl.
      by rewrite fmap_None. }
    rewrite Hkeys. apply count_fmap. intros m _. apply bye_relabel.
  - pose proof (ok_bye_round _ index_ok Hodd) as Hb.
    rewrite Forall_forall in Hb. by apply Hb.
Qed.
End Schedule.

(** Claim C1. For 4 to 8 players with pairwise different ids, every two
    different players are joined by exactly one pair of the whole schedule;
    the schedule has [N (N - 1) / 2] pairs of two real players; and it has
    [N - 1] rounds when [N] is even, [N] rounds when [N] is odd. *)
Theorem roundRobinTournament_every_pair_once (players : list Player.t) :
  NoDup (Player.id <$> players) → 4 ≤ length players ≤ 8 →
  (∀ p q, p ∈ players → q ∈ players → Player.id p ≠ Player.id q →
     count (joins (Player.id p) (Player.id q))
           (all_pairs (roundRobinTournament players)) = 1) ∧
  count is_real (all_pairs (roundRobinTournament players))
    = length players * (length players - 1) / 2 ∧
  length (roundRobinTournament players) = round_count (length players).
Proof.
  intros Hids Hn%index_draw_ok_4_8. split; [|split].
  - intros p q. by apply count_joins.
  - by apply count_is_real.
  - by apply length_rounds.
Qed.

Lemma roundRobinTournament_every_pair_once_witness :
  NoDup (Player.id <$> five_players) ∧ 4 ≤ length five_players ≤ 8 ∧
  (∀ p q, p ∈ five_players → q ∈ five_players → Player.id p ≠ Player.id q →
     count (joins (Player.id p) (Player.id q))
           (all_pairs (roundRobinTournament five_players)) = 1) ∧
  count is_real (all_pairs (roundRobinTournament five_players))
    = length five_players * (length five_players - 1) / 2 ∧
  length (roundRobinTournament five_players) = round_count (length five_players).
Proof.
  assert (NoDup (Player.id <$> five_players)) as Hids by compute_done.
  assert (4 ≤ length five_players ≤ 8) as Hn by compute_done.
  split; [done|]. split; [done|].
  exact (roundRobinTournament_every_pair_once five_players Hids Hn).
Defined.

(** Claim C2. For 4 to 8 players with pairwise different ids, no id is in
    more than one pair of a round. *)
Theorem roundRobinTournament_round_no_repeat (players : list Player.t)
    (round : Round.t) (a : nat) :
  NoDup (Player.id <$> players) → 4 ≤ length players ≤ 8 →
  round ∈ roundRobinTournament players →
  count (appears a) (Round.pairs round) ≤ 1.
Proof.
  intros Hids Hn%index_draw_ok_4_8. by apply count_appears.
Qed.

Lemma roundRobinTournament_round_no_repeat_witness :
  NoDup (Player.id <$> five_players) ∧ 4 ≤ length five_players ≤ 8 ∧
  first_round ∈ roundRobinTournament five_players ∧
  count (appears 3) (Round.pairs first_round) ≤ 1.
Proof.
  assert (NoDup (Player.id <$> five_players)) as Hids by compute_done.
  assert (4 ≤ length five_players ≤ 8) as Hn by compute_done.
  assert (first_round ∈ roundRobinTournament five_players) as Hin by compute_done.
  do 3 (split; [done|]).
  exact (roundRobinTournament_round_no_repeat five_players first_round 3 Hids Hn Hin).
Defined.

(** Claim C3. For 5 or 7 players with pairwise different ids, every player
    has exactly one bye in the whole schedule and every round has exactly
    one bye. *)
Theorem roundRobinTournament_byes (players : list Player.t) :
  NoDup (Player.id <$> players) → length players = 5 ∨ length players = 7 →
  (∀ p, p ∈ players →
     count (is_bye_of (Player.id p)) (all_pairs (roundRobinTournament players)) = 1) ∧
  (∀ round, round ∈ roundRobinTournament players →
     count is_bye (Round.pairs round) = 1).
Proof.
  intros Hids Hlen.
  assert (index_draw_ok (length players)) as Hok by (apply index_draw_ok_4_8; lia).
  assert (Nat.odd (length players)) as Hodd by (by destruct Hlen as [-> | ->]).
  split.
  - intros p. by apply count_is_bye_of.
  - intros round. by apply count_is_bye.
Qed.

Lemma roundRobinTournament_byes_witness :
  NoDup (Player.id <$> five_players) ∧
  (length five_players = 5 ∨ length five_players = 7) ∧
  (∀ p, p ∈ five_players →
     count (is_bye_of (Player.id p)) (all_pairs (roundRobinTournament five_players)) = 1) ∧
  (∀ round, round ∈ roundRobinTournament five_players →
     count is_bye (Round.pairs round) = 1).
Proof.
  assert (NoDup (Player.id <$> five_players)) as Hids by compute_done.
  assert (length five_players = 5 ∨ length five_players = 7) as Hn by (by left).
  split; [done|]. split; [done|].
  exact (roundRobinTournament_byes five_players Hids Hn).
Defined.

(** * Further properties of the form *)

(** ** [split] *)

Lemma split_cons_semicolon (rest : js_string) :
  split (semicolon :: rest) = [] :: split rest.
Proof. reflexivity. Qed.

Lemma split_never_empty (value : js_string) : split value ≠ [].
Proof.
  destruct value as [|c rest]; simpl; [done|].
  destruct (c =? semicolon)%N; [done|]. by destruct (split rest).
Qed.

Lemma join_cons_cons (p q : js_string) (rest : list js_string) :
  join (p :: q :: rest) = p ++ semicolon :: join (q :: rest).
Proof. reflexivity. Qed.

Lemma join_split_id (value : js_string) : join (split value) = value.
Proof.
  induction value as [|c rest IH]; [done|]. simpl split.
  destruct (c =? semicolon)%N eqn:Hc.
  - apply N.eqb_eq in Hc as ->.
    destruct (split rest) as [|q pieces] eqn:Hs; [by apply split_never_empty in Hs|].
    by rewrite join_cons_cons, IH.
  - destruct (split rest) as [|q pieces] eqn:Hs; [by apply split_never_empty in Hs|].
    destruct pieces as [|q' pieces].
    + simpl in *. by rewrite IH.
    + rewrite join_cons_cons in *. by rewrite <-IH.
Qed.

(** Entries without [";"], at least one of them, are got back by joining
    them with [";"] and splitting. *)
Theorem split_join (pieces : list js_string) :
  pieces ≠ [] → Forall (λ piece, semicolon ∉ piece) pieces →
  split (join pieces) = pieces.
Proof.
  intros Hne Hall. induction Hall as [|p rest Hp Hrest IH]; [done|]. clear Hne.
  destruct rest as [|q rest].
  - simpl. clear IH Hrest. induction p as [|c p IHp]; [done|].
    apply not_elem_of_cons in Hp as [Hc Hp]. simpl.
    destruct (c =? semicolon)%N eqn:Hcs; [apply N.eqb_eq in Hcs; congruence|].
    by rewrite (IHp Hp).
  - rewrite join_cons_cons. specialize (IH ltac:(done)).
    revert IH. generalize (join (q :: rest)). intros tail IH.
    induction p as [|c p IHp].
    + by rewrite app_nil_l, split_cons_semicolon, IH.
    + apply not_elem_of_cons in Hp as [Hc Hp]. simpl.
      destruct (c =? semicolon)%N eqn:Hcs; [apply N.eqb_eq in Hcs; congruence|].
      by rewrite (IHp Hp).
Qed.

Lemma split_length_clean (value : js_string) :
  length (split value) = S (semicolons value) ∧
  Forall (λ piece, semicolon ∉ piece) (split value).
Proof.
  unfold semicolons. induction value as [|c rest [IHlen IHall]].
  - split; [done|]. repeat constructor. by intros ?%elem_of_nil.
  - simpl split. rewrite filter_cons.
    destruct (c =? semicolon)%N eqn:Hc.
    + apply N.eqb_eq in Hc as ->. rewrite decide_True by done. simpl. split.
      * by rewrite IHlen.
      * constructor; [by intros ?%elem_of_nil|done].
    + apply N.eqb_neq in Hc. rewrite decide_False by done.
      destruct (split rest) as [|q pieces]; [done|]. split; [done|].
      apply Forall_cons in IHall as [Hq Hpieces]. constructor; [|done].
      intros [?|?]%elem_of_cons; [congruence|done].
Qed.

Lemma split_join_witness :
  [str "Ana"; []; str "Ben"] ≠ [] ∧
  Forall (λ piece, semicolon ∉ piece) [str "Ana"; []; str "Ben"] ∧
  split (join [str "Ana"; []; str "Ben"]) = [str "Ana"; []; str "Ben"].
Proof.
  assert ([str "Ana"; []; str "Ben"] ≠ []) as Hne by done.
  assert (Forall (λ piece, semicolon ∉ piece) [str "Ana"; []; str "Ben"]) as Hall
    by compute_done.
  split; [done|]. split; [done|].
  exact (split_join [str "Ana"; []; str "Ben"] Hne Hall).
Defined.

(** Splitting loses nothing: the entries joined with [";"] are the string
    again; there is one entry more than there are [";"], so at least one;
    and no entry has a [";"] in it. *)
Theorem split_round_trip (value : js_string) :
  join (split value) = value ∧
  length (split value) = S (semicolons value) ∧
  Forall (λ piece, semicolon ∉ piece) (split value).
Proof.
  split; [apply join_split_id|apply split_length_clean].
Qed.

(** ** The [players] field, further *)

Lemma includes_semicolons (value : js_string) :
  includes value = false ↔ semicolons value = 0.
Proof.
  unfold includes, semicolons. induction value as [|c rest IH]; [done|].
  simpl existsb. rewrite filter_cons, orb_false_iff, IH.
  destruct (c =? semicolon)%N eqn:Hc.
  - apply N.eqb_eq in Hc. rewrite decide_True by done. simpl. split; [by intros []|done].
  - apply N.eqb_neq in Hc. rewrite decide_False by done. tauto.
Qed.

Lemma split_single (value : js_string) :
  includes value = false → split value = [value].
Proof.
  intros Hinc. pose proof (split_length_clean value) as [Hlen _].
  apply includes_semicolons in Hinc. rewrite Hinc in Hlen.
  pose proof (join_split_id value) as Hjoin.
  destruct (split value) as [|p [|q pieces]]; simplify_eq/=. done.
Qed.

(** A string without [";"] is one entry, and is turned down with both
    messages of the field. *)
Theorem players_without_separator (value : js_string) :
  includes value = false →
  split value = [value] ∧
  players_issues value = [msg_players_separator; msg_players_count].
Proof.
  intros Hinc. pose proof (split_single value Hinc) as Hsplit.
  split; [done|]. unfold players_issues, players_refine. by rewrite Hinc, Hsplit.
Qed.

Lemma players_without_separator_witness :
  includes (str "Ana") = false ∧
  split (str "Ana") = [str "Ana"] ∧
  players_issues (str "Ana") = [msg_players_separator; msg_players_count].
Proof.
  assert (includes (str "Ana") = false) as H by reflexivity.
  split; [done|]. exact (players_without_separator (str "Ana") H).
Defined.

(** The check for a [";"] never decides: a string is accepted exactly when
    the callback of [refine] returns [true]. *)
Theorem players_refine_decides (value : js_string) :
  players_accepted value = players_refine value.
Proof.
  unfold players_accepted, players_issues.
  destruct (players_refine value) eqn:Href.
  - destruct (includes value) eqn:Hinc; [done|].
    apply split_single in Hinc as Hsplit.
    unfold players_refine in Href. by rewrite Hsplit in Href.
  - by destruct (includes value).
Qed.

(** The players made from an accepted string: their ids are their
    positions, there are 4 to 8 of them, every name is non-empty and free of
    [";"], every player has 0 points, and the names joined with [";"] are
    the string that was typed. *)
Theorem accepted_players_formatted (players : js_string) :
  players_accepted players = true →
  Player.id <$> formattedPlayers players = seq 0 (length (formattedPlayers players)) ∧
  4 ≤ length (formattedPlayers players) ≤ 8 ∧
  Forall (λ p, Player.name p ≠ [] ∧ (semicolon ∉ Player.name p) ∧ Player.points p = 0%Z)
         (formattedPlayers players) ∧
  join (Player.name <$> formattedPlayers players) = players.
Proof.
  intros [Hlen Hne]%players_accepted_refine%players_refine_spec.
  assert (Player.name <$> formattedPlayers players = split players) as Hnames.
  { unfold formattedPlayers. rewrite fmap_imap.
    rewrite <-(list_fmap_id (split players)) at 2.
    rewrite <-(imap_const id). by apply imap_ext. }
  assert (length (formattedPlayers players) = length (split players)) as Hl
    by apply length_imap.
  rewrite Hl. split; [apply formattedPlayers_ids|]. split; [done|]. split.
  - apply Forall_forall. intros p Hp.
    assert (Player.name p ∈ split players) as Hin.
    { rewrite <-Hnames. by apply list_elem_of_fmap_2. }
    split; [by apply Hne|]. split.
    + pose proof (split_length_clean players) as [_ Hall].
      rewrite Forall_forall in Hall. by apply Hall.
    + unfold formattedPlayers in Hp.
      apply list_elem_of_lookup in Hp as [i Hi].
      rewrite list_lookup_imap in Hi.
      destruct (split players !! i); simplify_eq/=. done.
  - rewrite Hnames. apply join_split_id.
Qed.

Lemma accepted_players_formatted_witness :
  players_accepted (str "Ana;Ben;Cy;Dee") = true ∧
  Player.id <$> formattedPlayers (str "Ana;Ben;Cy;Dee")
  = seq 0 (length (formattedPlayers (str "Ana;Ben;Cy;Dee"))) ∧
  4 ≤ length (formattedPlayers (str "Ana;Ben;Cy;Dee")) ≤ 8 ∧
  Forall (λ p, Player.name p ≠ [] ∧ (semicolon ∉ Player.name p) ∧ Player.points p = 0%Z)
         (formattedPlayers (str "Ana;Ben;Cy;Dee")) ∧
  join (Player.name <$> formattedPlayers (str "Ana;Ben;Cy;Dee")) = str "Ana;Ben;Cy;Dee".
Proof.
  assert (players_accepted (str "Ana;Ben;Cy;Dee") = true) as H by reflexivity.
  split; [done|]. exact (accepted_players_formatted (str "Ana;Ben;Cy;Dee") H).
Defined.

(** ** The [title] field, further *)

(** Validating a title never changes the store; it leaves the slug of the
    title in the [slug] state (the empty slug for the empty title), also
    when the title is turned down or the validation throws; and it writes
    to the console only when the lookup is reached and [getDoc] throws:
    not for the empty title, for which no lookup is made, and not for an
    empty slug, for which [doc] throws before the lookup. *)
Theorem title_validation_effects (slugify : js_string → js_string) (env : Env)
    (w : World) (title : js_string) :
  let w' := (title_issues slugify env title w).2 in
  store w' = store w ∧
  slug w' = (if length title =? 0 then [] else slugify title) ∧
  trace w' = trace w ++
             (if negb (length title =? 0) && negb (length (slugify title) =? 0)
                 && getDoc_throws env
              then [ConsoleError] else []).
Proof.
  simpl. rewrite title_issues_world, title_refine_run.
  destruct (length title =? 0); simpl; [by rewrite app_nil_r|].
  destruct (length (slugify title) =? 0); simpl; [by rewrite app_nil_r|].
  destruct (getDoc_throws env); simpl; [done|by rewrite app_nil_r].
Qed.

(** ** [onSubmit], further *)

Lemma str_inj (s1 s2 : string) : str s1 = str s2 → s1 = s2.
Proof.
  unfold str. intros H.
  assert (String.list_ascii_of_string s1 = String.list_ascii_of_string s2) as Hl.
  { revert H. generalize (String.list_ascii_of_string s1) as l1.
    generalize (String.list_ascii_of_string s2) as l2.
    intros l2 l1. revert l2. induction l1 as [|a l1 IH]; intros [|b l2] H; simplify_eq/=.
    - done.
    - f_equal; [|by apply IH].
      rewrite <-(ascii_N_embedding a), <-(ascii_N_embedding b). by f_equal. }
  rewrite <-(String.string_of_list_ascii_of_string s1),
          <-(String.string_of_list_ascii_of_string s2). by f_equal.
Qed.

Lemma toString_inj (n1 n2 : nat) : toString n1 = toString n2 → n1 = n2.
Proof. intros H%str_inj. by apply (inj pretty). Qed.

Lemma apply_writes_snoc m writes ref d :
  apply_writes m (writes ++ [(ref, d)]) = <[ref := d]> (apply_writes m writes).
Proof. unfold apply_writes. by rewrite foldl_app. Qed.

Lemma apply_writes_other m writes ref :
  (∀ d, (ref, d) ∉ writes) → apply_writes m writes !! ref = m !! ref.
Proof.
  induction writes as [|[r d0] writes IH] using rev_ind; intros Hnot; [done|].
  rewrite apply_writes_snoc, lookup_insert_ne.
  - apply IH. intros d Hd. apply (Hnot d), elem_of_app. by left.
  - intros ->. apply (Hnot d0), elem_of_app. right. by left.
Qed.

Lemma apply_writes_agreed m writes ref d :
  (ref, d) ∈ writes → (∀ d', (ref, d') ∈ writes → d' = d) →
  apply_writes m writes !! ref = Some d.
Proof.
  induction writes as [|[r d0] writes IH] using rev_ind; intros Hin Hsame.
  - by apply elem_of_nil in Hin.
  - rewrite apply_writes_snoc. destruct (decide (r = ref)) as [->|Hne].
    + rewrite lookup_insert_eq. f_equal. apply Hsame, elem_of_app. right. by left.
    + rewrite lookup_insert_ne by done. apply IH.
      * apply elem_of_app in Hin as [Hin|Hin]; [done|].
        apply list_elem_of_singleton in Hin. congruence.
      * intros d' Hd'. apply Hsame, elem_of_app. by left.
Qed.

Lemma batch_of_elem (tournament : Tournament.t) (rounds : list Round.t) ref d :
  (ref, d) ∈ batch_of tournament rounds ↔
  (ref = [str "tournaments"; Tournament.slug tournament] ∧ d = TournamentDoc tournament) ∨
  (∃ round, round ∈ rounds ∧
     ((ref = round_ref (Tournament.slug tournament) round ∧ d = RoundDoc (Round.id round)) ∨
      (∃ pair, pair ∈ Round.pairs round ∧
         ref = pair_ref (Tournament.slug tournament) round pair ∧ d = PairDoc pair))).
Proof.
  unfold batch_of. rewrite elem_of_cons, list_elem_of_join.
  split.
  - intros [[= -> ->]|(ws & Hin & (round & -> & Hround)%list_elem_of_fmap)]; [by left|].
    right. exists round. split; [done|].
    unfold round_writes in Hin. apply elem_of_cons in Hin as [[= -> ->]|Hin]; [by left|].
    apply list_elem_of_fmap in Hin as (pair & [= -> ->] & Hpair). right. eauto.
  - intros [[-> ->]|(round & Hround & Hcase)]; [by left|]. right.
    exists (round_writes (Tournament.slug tournament) round).
    split; [|by apply list_elem_of_fmap_2].
    unfold round_writes. apply elem_of_cons.
    destruct Hcase as [[-> ->]|(pair & Hpair & -> & ->)]; [by left|].
    right. apply list_elem_of_fmap. eauto.
Qed.

Lemma batch_of_under (tournament : Tournament.t) (rounds : list Round.t) ref d :
  (ref, d) ∈ batch_of tournament rounds → under (Tournament.slug tournament) ref.
Proof.
  intros [[-> _]|(round & _ & [[-> _]|(pair & _ & -> & _)])]%batch_of_elem;
    unfold under, round_ref, pair_ref; eauto.
Qed.

Lemma batch_of_tournament (m : gmap path document) (tournament : Tournament.t)
    (rounds : list Round.t) :
  apply_writes m (batch_of tournament rounds)
    !! [str "tournaments"; Tournament.slug tournament]
  = Some (TournamentDoc tournament).
Proof.
  apply apply_writes_agreed; [by left|].
  intros d' [[_ ->]|(round & _ & [[[=] _]|(pair & _ & [=] & _)])]%batch_of_elem.
  done.
Qed.

Lemma NoDup_fmap_agree {A B} (f : A → B) (l : list A) (x y : A) :
  NoDup (f <$> l) → x ∈ l → y ∈ l → f x = f y → x = y.
Proof.
  intros Hnd [i Hi]%list_elem_of_lookup [j Hj]%list_elem_of_lookup Hxy.
  assert (i = j) as ->.
  { apply (NoDup_lookup (f <$> l) i j (f x)); [done|..].
    - by rewrite list_lookup_fmap, Hi.
    - by rewrite list_lookup_fmap, Hj, Hxy. }
  congruence.
Qed.

Lemma title_issues_slug (slugify : js_string → js_string) (env : Env)
    (w : World) (title : js_string) :
  length title ≠ 0 →
  slug (title_issues slugify env title w).2 = slugify title ∧
  documents (title_issues slugify env title w).2 = documents w.
Proof.
  intros Hlen%Nat.eqb_neq. rewrite title_issues_world, title_refine_run, Hlen.
  destruct (length (slugify title) =? 0); [done|].
  by destruct (getDoc_throws env).
Qed.

Lemma tournament_ref_is_key (slug : js_string) :
  slug ≠ [] → is_key [str "tournaments"; slug] = true.
Proof. by destruct slug. Qed.

Lemma round_ref_is_key (slug : js_string) (round : Round.t) :
  slug ≠ [] → is_key (round_ref slug round) = true.
Proof.
  intros Hslug. pose proof (toString_nonempty (Round.id round)) as Hid.
  unfold is_key, round_ref. simpl.
  destruct slug; [done|]. by destruct (toString (Round.id round)).
Qed.

Lemma pair_ref_is_key (slug : js_string) (round : Round.t) (pair : Pair.t) :
  slug ≠ [] → is_key (pair_ref slug round pair) = true.
Proof.
  intros Hslug. pose proof (toString_nonempty (Round.id round)) as Hrid.
  pose proof (toString_nonempty (Pair.id pair)) as Hpid.
  unfold is_key, pair_ref. simpl.
  destruct slug; [done|]. destruct (toString (Round.id round)); [done|].
  by destruct (toString (Pair.id pair)).
Qed.

Lemma length_eqb_nonempty (slug : js_string) :
  slug ≠ [] → (length slug =? 0) = false.
Proof. by destruct slug. Qed.

(** With the empty slug in the state (as before any title is typed),
    [doc(db, "tournaments", slug)] throws right after the scheduler was
    called: nothing is committed, shown or logged. *)
Lemma onSubmit_empty_slug (env : Env) (u : User) (values : Values) (w : World) :
  user env = Some u → slug w = [] →
  onSubmit env values w
  = (Thrown, {| slug := slug w; documents := documents w;
                trace := trace w ++ [Scheduled (formattedPlayers (v_players values))] |}).
Proof.
  intros Huser Hslug. rewrite (onSubmit_run env u) by done. by rewrite Hslug.
Qed.

(** When the commit is rejected nothing is stored, and after the toast the
    error is logged: the dialog is not closed and the page is not
    refreshed. *)
Theorem onSubmit_commit_rejected (env : Env) (u : User) (values : Values) (w : World) :
  user env = Some u → slug w ≠ [] → commit_rejects env = true →
  let w' := (onSubmit env values w).2 in
  (onSubmit env values w).1 = Returned () ∧
  store w' = store w ∧
  ∃ writes,
    trace w' = trace w ++ [Scheduled (formattedPlayers (v_players values));
                           Commit writes false; ToastPromise false; ConsoleError].
Proof.
  intros Huser Hslug%length_eqb_nonempty Hrej. simpl.
  rewrite (onSubmit_run env u) by done. rewrite Hslug, Hrej. simpl. eauto.
Qed.

Lemma onSubmit_commit_rejected_witness :
  user commit_failing = Some sample_user ∧ slug typed_world ≠ [] ∧
  commit_rejects commit_failing = true ∧
  let w' := (onSubmit commit_failing sample_values typed_world).2 in
  (onSubmit commit_failing sample_values typed_world).1 = Returned () ∧
  store w' = store typed_world ∧
  ∃ writes,
    trace w' = trace typed_world ++
               [Scheduled (formattedPlayers (v_players sample_values));
                Commit writes false; ToastPromise false; ConsoleError].
Proof.
  assert (user commit_failing = Some sample_user) as Hu by reflexivity.
  assert (slug typed_world ≠ []) as Hs by done.
  assert (commit_rejects commit_failing = true) as Hr by reflexivity.
  split; [done|]. split; [done|]. split; [done|].
  exact (onSubmit_commit_rejected commit_failing sample_user sample_values
           typed_world Hu Hs Hr).
Defined.

(** When the slug in the state is not empty and the commit goes through,
    the tournament is stored under that slug, with the title and point
    system of the form, the user's [sub], the formatted players and the
    time of the call; then the close button is clicked, if [closeRef] holds
    an element, and the page refreshed. *)
Theorem onSubmit_commit_fulfilled (env : Env) (u : User) (values : Values) (w : World) :
  user env = Some u → slug w ≠ [] → commit_rejects env = false →
  let w' := (onSubmit env values w).2 in
  (onSubmit env values w).1 = Returned () ∧
  store w' !! [str "tournaments"; slug w]
  = Some (TournamentDoc (tournament_of env u values (slug w))) ∧
  ∃ writes,
    trace w' = trace w ++ [Scheduled (formattedPlayers (v_players values));
                           Commit writes true; ToastPromise true]
                       ++ (if closeRef_attached env then [CloseClick] else [])
                       ++ [RouterRefresh].
Proof.
  intros Huser Hne Hok. pose proof (length_eqb_nonempty _ Hne) as Hslug. simpl.
  rewrite (onSubmit_run env u) by done. rewrite Hslug, Hok. simpl.
  split; [done|]. split; [|eauto].
  rewrite store_lookup, tournament_ref_is_key by done.
  apply (batch_of_tournament _ (tournament_of env u values (slug w))).
Qed.

Lemma onSubmit_commit_fulfilled_witness :
  user signed_in = Some sample_user ∧ slug typed_world ≠ [] ∧
  commit_rejects signed_in = false ∧
  let w' := (onSubmit signed_in sample_values typed_world).2 in
  (onSubmit signed_in sample_values typed_world).1 = Returned () ∧
  store w' !! [str "tournaments"; slug typed_world]
  = Some (TournamentDoc (tournament_of signed_in sample_user sample_values
                           (slug typed_world))) ∧
  ∃ writes,
    trace w' = trace typed_world ++
               [Scheduled (formattedPlayers (v_players sample_values));
                Commit writes true; ToastPromise true]
               ++ (if closeRef_attached signed_in then [CloseClick] else [])
               ++ [RouterRefresh].
Proof.
  assert (user signed_in = Some sample_user) as Hu by reflexivity.
  assert (slug typed_world ≠ []) as Hs by done.
  assert (commit_rejects signed_in = false) as Hr by reflexivity.
  split; [done|]. split; [done|]. split; [done|].
  exact (onSubmit_commit_fulfilled signed_in sample_user sample_values
           typed_world Hu Hs Hr).
Defined.

(** Whatever happens, [onSubmit] leaves alone every document that is
    neither the tournament document of the current slug nor below it, and
    it does not change the [slug] state. *)
Theorem onSubmit_frame (env : Env) (values : Values) (w : World) (ref : path) :
  ¬ under (slug w) ref →
  store (onSubmit env values w).2 !! ref = store w !! ref ∧
  slug (onSubmit env values w).2 = slug w.
Proof.
  intros Hout. destruct (user env) as [u|] eqn:Huser.
  - rewrite (onSubmit_run env u) by done.
    destruct (length (slug w) =? 0); [done|].
    destruct (commit_rejects env); simpl; [done|]. split; [|done].
    rewrite !store_lookup. simpl. destruct (is_key ref); [|done].
    apply apply_writes_other. intros d Hd%batch_of_under. done.
  - unfold onSubmit. by rewrite Huser.
Qed.

Lemma onSubmit_frame_witness :
  ¬ under (slug second_world) [str "tournaments"; str "chess"] ∧
  store (onSubmit signed_in sample_values second_world).2 !! [str "tournaments"; str "chess"]
  = store second_world !! [str "tournaments"; str "chess"] ∧
  slug (onSubmit signed_in sample_values second_world).2 = slug second_world.
Proof.
  assert (¬ under (slug second_world) [str "tournaments"; str "chess"]) as H
    by (by intros [rest [=]]).
  split; [done|].
  exact (onSubmit_frame signed_in sample_values second_world
           [str "tournaments"; str "chess"] H).
Defined.

Lemma batch_of_lookup (m : gmap path document) (tournament : Tournament.t)
    (rounds : list Round.t) (round : Round.t) :
  NoDup (Round.id <$> rounds) →
  (∀ r, r ∈ rounds → NoDup (Pair.id <$> Round.pairs r)) →
  round ∈ rounds →
  let stored := apply_writes m (batch_of tournament rounds) in
  stored !! round_ref (Tournament.slug tournament) round
  = Some (RoundDoc (Round.id round)) ∧
  ∀ pair, pair ∈ Round.pairs round →
    stored !! pair_ref (Tournament.slug tournament) round pair = Some (PairDoc pair).
Proof.
  intros Hrounds Hpairs Hround. simpl. split.
  - apply apply_writes_agreed.
    + apply batch_of_elem. right. exists round. split; [done|]. by left.
    + intros d' [[[=] _]|(r & Hr & [[Href ->]|(pair & _ & [=] & _)])]%batch_of_elem.
      injection Href as Hid%toString_inj. by rewrite Hid.
  - intros pair Hpair. apply apply_writes_agreed.
    + apply batch_of_elem. right. exists round. split; [done|]. right. eauto.
    + intros d' [[[=] _]|(r & Hr & [[[=] _]|(p & Hp & Href & ->)])]%batch_of_elem.
      injection Href as Hrid%toString_inj Hpid%toString_inj.
      assert (round = r) as <- by by apply (NoDup_fmap_agree Round.id rounds).
      f_equal. symmetry.
      by apply (NoDup_fmap_agree Pair.id (Round.pairs round)); [apply Hpairs|..].
Qed.

(** A batch whose rounds have different ids, and whose pairs have different
    ids within a round, can be read back after it is applied: every round
    document and every pair document is found at its own reference. *)
Theorem batch_read_back (m : gmap path document) (tournament : Tournament.t)
    (rounds : list Round.t) (round : Round.t) :
  NoDup (Round.id <$> rounds) →
  (∀ r, r ∈ rounds → NoDup (Pair.id <$> Round.pairs r)) →
  round ∈ rounds →
  let stored := apply_writes m (batch_of tournament rounds) in
  stored !! round_ref (Tournament.slug tournament) round
  = Some (RoundDoc (Round.id round)) ∧
  ∀ pair, pair ∈ Round.pairs round →
    stored !! pair_ref (Tournament.slug tournament) round pair = Some (PairDoc pair).
Proof. apply batch_of_lookup. Qed.

Lemma batch_read_back_witness :
  NoDup (Round.id <$> sample_rounds) ∧
  (∀ r, r ∈ sample_rounds → NoDup (Pair.id <$> Round.pairs r)) ∧
  first_round ∈ sample_rounds ∧
  let stored := apply_writes ∅ (batch_of sample_tournament sample_rounds) in
  stored !! round_ref (Tournament.slug sample_tournament) first_round
  = Some (RoundDoc (Round.id first_round)) ∧
  ∀ pair, pair ∈ Round.pairs first_round →
    stored !! pair_ref (Tournament.slug sample_tournament) first_round pair
    = Some (PairDoc pair).
Proof.
  assert (NoDup (Round.id <$> sample_rounds)) as Hr by compute_done.
  assert (∀ r, r ∈ sample_rounds → NoDup (Pair.id <$> Round.pairs r)) as Hp
    by (apply Forall_forall; compute_done).
  assert (first_round ∈ sample_rounds) as Hin by compute_done.
  split; [done|]. split; [done|]. split; [done|].
  exact (batch_read_back ∅ sample_tournament sample_rounds first_round Hr Hp Hin).
Defined.

(** Creating a tournament takes its title: after a non-empty title with a
    non-empty slug was validated and the form submitted with a commit that
    went through, the tournament document sits at the reference of the
    title, and the title is turned down from then on, by whoever validates
    it. *)
Theorem created_title_is_taken (slugify : js_string → js_string)
    (validating creating later : Env) (u : User) (values : Values) (w : World)
    (title : js_string) :
  length title ≠ 0 → slugify title ≠ [] →
  user creating = Some u → commit_rejects creating = false →
  let validated := (title_issues slugify validating title w).2 in
  let created := (onSubmit creating values validated).2 in
  is_Some (store created !! title_ref slugify title) ∧
  title_accepted slugify later title created = false.
Proof.
  intros Hlen Hslug Huser Hok. simpl.
  destruct (title_issues_slug slugify validating w title Hlen) as [Hs Hd].
  assert (is_Some (store (onSubmit creating values
                            (title_issues slugify validating title w).2).2
                     !! title_ref slugify title)) as Htaken.
  { rewrite (onSubmit_run creating u) by done.
    rewrite Hs, (length_eqb_nonempty _ Hslug), Hok. simpl.
    rewrite store_lookup. unfold title_ref.
    rewrite tournament_ref_is_key by done. simpl.
    pose proof (batch_of_tournament
      (documents (title_issues slugify validating title w).2)
      (tournament_of creating u values (slugify title))
      (roundRobinTournament (formattedPlayers (v_players values)))) as H.
    simpl in H. rewrite H. eauto. }
  split; [done|].
  apply not_true_is_false. rewrite title_accepted_iff.
  intros (_ & _ & _ & Hfree). rewrite Hfree in Htaken. by destruct Htaken.
Qed.

Lemma created_title_is_taken_witness :
  length (str "chess") ≠ 0 ∧ sample_slugify (str "chess") ≠ [] ∧
  user signed_in = Some sample_user ∧ commit_rejects signed_in = false ∧
  let validated := (title_issues sample_slugify signed_in (str "chess") empty_world).2 in
  let created := (onSubmit signed_in sample_values validated).2 in
  is_Some (store created !! title_ref sample_slugify (str "chess")) ∧
  title_accepted sample_slugify signed_out (str "chess") created = false.
Proof.
  assert (length (str "chess") ≠ 0) as Hlen by done.
  assert (sample_slugify (str "chess") ≠ []) as Hslug by done.
  assert (user signed_in = Some sample_user) as Hu by reflexivity.
  assert (commit_rejects signed_in = false) as Hr by reflexivity.
  split; [done|]. split; [done|]. split; [done|]. split; [done|].
  exact (created_title_is_taken sample_slugify signed_in signed_in signed_out
           sample_user sample_values empty_world (str "chess") Hlen Hslug Hu Hr).
Defined.

Lemma imap_index_NoDup {A B} (f : nat → A → B) (proj : B → nat) (g : nat → nat)
    (l : list A) :
  (∀ i x, proj (f i x) = g i) → Inj (=) (=) g → NoDup (proj <$> imap f l).
Proof.
  intros Hproj Hinj.
  assert (proj <$> imap f l = g <$> seq 0 (length l)) as ->.
  { apply list_eq. intros i. rewrite !list_lookup_fmap, list_lookup_imap.
    destruct (l !! i) as [x|] eqn:Hi; simpl.
    - rewrite lookup_seq_lt by (by eapply lookup_lt_Some). simpl. by rewrite Hproj.
    - rewrite lookup_seq_ge; [done|]. by apply lookup_ge_None. }
  apply NoDup_fmap_2; [done|apply NoDup_seq].
Qed.

Lemma roundRobinTournament_round_ids (players : list Player.t) :
  NoDup (Round.id <$> roundRobinTournament players).
Proof.
  unfold roundRobinTournament.
  apply (imap_index_NoDup _ _ (λ r, r + 1)); [done|]. intros r1 r2. lia.
Qed.

Lemma roundRobinTournament_pair_ids (players : list Player.t) (round : Round.t) :
  round ∈ roundRobinTournament players → NoDup (Pair.id <$> Round.pairs round).
Proof.
  unfold roundRobinTournament. intros [r Hr]%list_elem_of_lookup.
  rewrite list_lookup_imap in Hr.
  destruct (draw players !! r) as [met|]; simplify_eq/=.
  apply (imap_index_NoDup _ _ (λ k, k)); [by intros k [p1 p2]|].
  by intros k1 k2.
Qed.

(** After a commit that went through, with a non-empty slug in the state:
    if the rounds that the scheduler returned have different ids, and the
    pairs of each round have different ids, every round and every pair of
    every round is read back at its reference below the tournament. *)
Theorem onSubmit_schedule_stored (env : Env) (u : User) (values : Values) (w : World)
    (round : Round.t) :
  user env = Some u → slug w ≠ [] → commit_rejects env = false →
  NoDup (Round.id <$> roundRobinTournament (formattedPlayers (v_players values))) →
  (∀ r, r ∈ roundRobinTournament (formattedPlayers (v_players values)) →
        NoDup (Pair.id <$> Round.pairs r)) →
  round ∈ roundRobinTournament (formattedPlayers (v_players values)) →
  let w' := (onSubmit env values w).2 in
  store w' !! round_ref (slug w) round = Some (RoundDoc (Round.id round)) ∧
  ∀ pair, pair ∈ Round.pairs round →
    store w' !! pair_ref (slug w) round pair = Some (PairDoc pair).
Proof.
  intros Huser Hne Hok Hrounds Hpairs Hround.
  pose proof (length_eqb_nonempty _ Hne) as Hslug. simpl.
  rewrite (onSubmit_run env u) by done. rewrite Hslug, Hok. simpl.
  pose proof (batch_of_lookup (documents w) (tournament_of env u values (slug w))
                (roundRobinTournament (formattedPlayers (v_players values))) round
                Hrounds Hpairs Hround) as [Hr Hp].
  split.
  - by rewrite store_lookup, round_ref_is_key.
  - intros pair Hpair. rewrite store_lookup, pair_ref_is_key by done.
    by apply Hp.
Qed.

Lemma onSubmit_schedule_stored_witness :
  user signed_in = Some sample_user ∧ slug typed_world ≠ [] ∧
  commit_rejects signed_in = false ∧
  NoDup (Round.id <$> roundRobinTournament (formattedPlayers (v_players sample_values))) ∧
  (∀ r, r ∈ roundRobinTournament (formattedPlayers (v_players sample_values)) →
        NoDup (Pair.id <$> Round.pairs r)) ∧
  first_round ∈ roundRobinTournament (formattedPlayers (v_players sample_values)) ∧
  let w' := (onSubmit signed_in sample_values typed_world).2 in
  store w' !! round_ref (slug typed_world) first_round
  = Some (RoundDoc (Round.id first_round)) ∧
  ∀ pair, pair ∈ Round.pairs first_round →
    store w' !! pair_ref (slug typed_world) first_round pair = Some (PairDoc pair).
Proof.
  assert (user signed_in = Some sample_user) as Hu by reflexivity.
  assert (slug typed_world ≠ []) as Hs by done.
  assert (commit_rejects signed_in = false) as Hr by reflexivity.
  assert (NoDup (Round.id <$> roundRobinTournament
                    (formattedPlayers (v_players sample_values)))) as Hrs
    by compute_done.
  assert (∀ r, r ∈ roundRobinTournament (formattedPlayers (v_players sample_values)) →
               NoDup (Pair.id <$> Round.pairs r)) as Hps
    by (apply Forall_forall; compute_done).
  assert (first_round ∈ roundRobinTournament (formattedPlayers (v_players sample_values)))
    as Hin by compute_done.
  do 6 (split; [done|]).
  exact (onSubmit_schedule_stored signed_in sample_user sample_values typed_world
           first_round Hu Hs Hr Hrs Hps Hin).
Defined.
